(** * Canvas editor: element store, history and command layer of [src/App.tsx]

    The React component [App] keeps four pieces of state that the editing
    commands read and write: [elements], [selectedId], [history] and
    [historyIndex].  Every command is an event handler: it reads the state
    captured by the render that created it and issues a few [setX(value)]
    calls, never a functional update.  A command is therefore a function
    from the state it closes over to the next state; the setters of one
    handler write into a pending state while all its reads go to the
    closure.

    JavaScript objects are finite maps from field names to values
    ([gmap string value]); object spread is map union.  Numbers are
    binary64 floating-point numbers: [VNum n] is the number whose value
    is the integer [n], [VDouble f] a number that is no integer (a finite
    fraction or an infinity), and [x + 20] is the IEEE 754 addition of
    the Standard Library's [SpecFloat].  The counters [elements.length + 1]
    and [historyIndex + 1], [- 1] are array sizes and positions, where
    the addition is exact.  [fileName] and [zoom] are not read by any
    command and are left out.

    What the environment decides is an argument of the command: the id
    [generateId()] returns ([gid]) and the answer of [window.confirm]
    ([confirm]).  A payload is an object ([{}] when the caller gives
    none).  Commands are the handlers of the latest render, as the
    toolbar, the canvas and the panels receive them; the [keydown]
    listener, whose closure is renewed only when [selectedId], [history]
    or [historyIndex] change, is not modelled.

    Further down, [handleKeyDown] is given with the state its listener
    captured as an argument of its own, and the functions of the
    generative service ([src/unnamed/part_000]) follow the editor. *)

From stdpp Require Import gmap strings list fin_maps pretty.
From Stdlib Require SpecFloat.

(** ** JavaScript values *)

#[global] Instance spec_float_eq_dec : EqDecision SpecFloat.spec_float.
Proof. solve_decision. Defined.

(** A number is [VNum n] when its value is the integer [n] (then [n] is
    one of the integers binary64 has), [VNaN] when it is NaN and
    [VDouble f] otherwise: [f] is then a finite binary64 number in
    [SpecFloat]'s canonical form whose value is no integer, or an
    infinity.  The negative zero is not told from zero. *)
Inductive value :=
  | VUndefined
  | VNull
  | VBool (b : bool)
  | VNum (n : Z)
  | VDouble (f : SpecFloat.spec_float)
  | VNaN
  | VStr (s : string).

#[global] Instance value_eq_dec : EqDecision value.
Proof. solve_decision. Defined.

(** [if (v)], [!v]: the falsy values are undefined, null, false, 0, NaN
    and the empty string. *)
Definition truthy (v : value) : bool :=
  match v with
  | VUndefined | VNull | VNaN => false
  | VBool b => b
  | VNum n => negb (n =? 0)%Z
  | VDouble f =>
      match f with
      | SpecFloat.S754_zero _ | SpecFloat.S754_nan => false
      | _ => true
      end
  | VStr s => negb (String.eqb s "")
  end.

(** [a === b] on primitive values: NaN differs from everything. *)
Definition strict_eq (a b : value) : bool :=
  match a, b with
  | VNaN, _ | _, VNaN => false
  | _, _ => bool_decide (a = b)
  end.

(** The binary64 number nearest to the integer [z] (ties to even): [z]
    itself when binary64 has it. *)
Definition binary64 (z : Z) : SpecFloat.spec_float :=
  SpecFloat.binary_normalize 53 1024 z 0 false.

(** The value that stands for a binary64 number; a finite one is
    [m * 2 ^ e] with the sign [s]. *)
Definition number_of (f : SpecFloat.spec_float) : value :=
  match f with
  | SpecFloat.S754_nan => VNaN
  | SpecFloat.S754_zero _ => VNum 0
  | SpecFloat.S754_infinity _ => VDouble f
  | SpecFloat.S754_finite s m e =>
      if (0 <=? e)%Z then VNum (SpecFloat.cond_Zopp s (Z.pos m * 2 ^ e))
      else if (Z.pos m mod 2 ^ (- e) =? 0)%Z
           then VNum (SpecFloat.cond_Zopp s (Z.pos m / 2 ^ (- e)))
           else VDouble f
  end.

(** [v + n] for an integer literal [n] of the source: concatenation with
    the literal's digits when [v] is a string; otherwise the binary64
    sum of ToNumber([v]) and [n], rounded to nearest, ties to even. *)
Definition js_plus (v : value) (n : Z) : value :=
  let plus_n f := number_of (SpecFloat.SFadd 53 1024 f (binary64 n)) in
  match v with
  | VStr s => VStr (s +:+ pretty n)
  | VNum a => plus_n (binary64 a)
  | VDouble f => plus_n f
  | VBool b => plus_n (binary64 (if b then 1 else 0))
  | VNull => plus_n (binary64 0)
  | VUndefined | VNaN => VNaN
  end.

(** [Number.isSafeInteger]: an integer binary64 has, and no other
    integer rounds to. *)
Definition safe_integer (z : Z) : Prop := (- 2 ^ 53 < z < 2 ^ 53)%Z.

(** The float [f] is the integer [z], held with an exponent that is
    not positive. *)
Definition holds (f : SpecFloat.spec_float) (z : Z) : Prop :=
  match f with
  | SpecFloat.S754_zero _ => z = 0%Z
  | SpecFloat.S754_finite s m e =>
      (e ≤ 0)%Z ∧
      ∃ w, (0 < w)%Z ∧ Zpos m = (w * 2 ^ (- e))%Z ∧ z = SpecFloat.cond_Zopp s w
  | _ => False
  end.

(** An object; a field that is not there reads as undefined. *)
Abbreviation object := (gmap string value).

Definition get (o : object) (k : string) : value := default VUndefined (o !! k).

(** [{...a, ...b}]: the fields of [b] win. *)
Definition spread (a b : object) : object := b ∪ a.

(** [arr[i]] for an integer [i]; [None] is JavaScript's undefined. *)
Definition index {A} (arr : list A) (i : Z) : option A :=
  if (i <? 0)%Z then None else arr !! Z.to_nat i.

(** [arr.slice(0, e)]: a negative end counts from the end of the array. *)
Definition slice0 {A} (arr : list A) (e : Z) : list A :=
  let n := Z.of_nat (length arr) in
  let k := if (e <? 0)%Z then Z.max (n + e) 0 else Z.min e n in
  take (Z.to_nat k) arr.

(** ** The enumerations of [./types] *)

(** Modelled from the spec: [types.ts] (ElementType, ShapeType,
    CanvasElement) is not part of the sources.  The spec lists the type
    tags text, shape and image; the source uses [ElementType.TEXT],
    [ElementType.SHAPE] and [ShapeType.RECTANGLE].  An enum member is
    stored in an object as the string of its name; only the fact that
    distinct members are distinct values is used. *)
Inductive ElementType := TEXT | SHAPE | IMAGE.

#[global] Instance ElementType_eq_dec : EqDecision ElementType.
Proof. solve_decision. Defined.

Definition ElementType_value (t : ElementType) : value :=
  match t with
  | TEXT => VStr "text"
  | SHAPE => VStr "shape"
  | IMAGE => VStr "image"
  end.

Inductive ShapeType := RECTANGLE.

Definition ShapeType_value (t : ShapeType) : value :=
  match t with RECTANGLE => VStr "rectangle" end.

(** ** Component state *)

Record AppState := mkState {
  elements : list object;
  selectedId : value;          (* string | null *)
  history : list (list object);
  historyIndex : Z
}.

#[global] Instance AppState_eq_dec : EqDecision AppState.
Proof. solve_decision. Defined.

Definition setElements (v : list object) (st : AppState) : AppState :=
  mkState v (selectedId st) (history st) (historyIndex st).
Definition setSelectedId (v : value) (st : AppState) : AppState :=
  mkState (elements st) v (history st) (historyIndex st).
Definition setHistory (v : list (list object)) (st : AppState) : AppState :=
  mkState (elements st) (selectedId st) v (historyIndex st).
Definition setHistoryIndex (v : Z) (st : AppState) : AppState :=
  mkState (elements st) (selectedId st) (history st) v.

(** The four [useState] initial values. *)
Definition init : AppState := mkState [] VNull [] (-1).

(** ** Undo / redo logic *)

(** [addToHistory], closed over the state [s]; its two setters write
    into the pending state [st]. *)
Definition addToHistory (s : AppState) (newElements : list object)
    (st : AppState) : AppState :=
  let newHistory := slice0 (history s) (historyIndex s + 1) ++ [newElements] in
  setHistoryIndex (Z.of_nat (length newHistory) - 1) (setHistory newHistory st).

(** The mount effect ("Initial load"). *)
Definition initial_load (s : AppState) : AppState :=
  if (length (history s) =? 0)%nat then addToHistory s [] s else s.

(** The state the first command sees. *)
Definition startup : AppState := initial_load init.

(** [handleUndo]; [confirm] is the answer [window.confirm] gives when it
    is asked.  The result is [None] when [history[historyIndex - 1]] is
    undefined, which would store undefined as the element array. *)
Definition handleUndo (confirm : bool) (s : AppState) : option AppState :=
  if (0 <? historyIndex s)%Z then
    if (1 <? length (history s))%nat && negb confirm then Some s
    else
      snapshot ← index (history s) (historyIndex s - 1);
      Some (setElements snapshot (setHistoryIndex (historyIndex s - 1) s))
  else Some s.

Definition handleRedo (confirm : bool) (s : AppState) : option AppState :=
  if (historyIndex s <? Z.of_nat (length (history s)) - 1)%Z then
    if (1 <? length (history s))%nat && negb confirm then Some s
    else
      snapshot ← index (history s) (historyIndex s + 1);
      Some (setElements snapshot (setHistoryIndex (historyIndex s + 1) s))
  else Some s.

(** [canUndo] and [canRedo] as passed to the toolbar. *)
Definition canUndo (s : AppState) : bool := (0 <? historyIndex s)%Z.
Definition canRedo (s : AppState) : bool :=
  (historyIndex s <? Z.of_nat (length (history s)) - 1)%Z.

(** ** Element management *)

(** The object literal of [addElement] before the type-specific
    defaults: nine fields, then the payload spread over them. *)
Definition base_element (gid : string) (type : ElementType) (count : nat)
    (payload : object) : object :=
  spread
    (<["id" := VStr gid]>
     (<["type" := ElementType_value type]>
     (<["x" := VNum 200]>
     (<["y" := VNum 200]>
     (<["width" := VNum (if decide (type = TEXT) then 300 else 200)]>
     (<["height" := VNum (if decide (type = TEXT) then 100 else 200)]>
     (<["rotation" := VNum 0]>
     (<["zIndex" := VNum (Z.of_nat count + 1)]>
     (<["opacity" := VNum 1]> ∅)))))))))
    payload.

Definition slate_400 : value := VStr "#94a3b8".
Definition slate_800 : value := VStr "#1e293b".

(** "Defaults for specific types": the two [if] statements. *)
Definition shape_defaults (type : ElementType) (payload el : object) : object :=
  if bool_decide (type = SHAPE) && negb (truthy (get payload "backgroundColor"))
  then <["shapeType" := ShapeType_value RECTANGLE]>
         (<["backgroundColor" := slate_400]> el)
  else el.

Definition text_defaults (type : ElementType) (payload el : object) : object :=
  if bool_decide (type = TEXT) && negb (truthy (get payload "color"))
  then <["color" := slate_800]> el
  else el.

(** The element [addElement] creates; [gid] is what [generateId()]
    returns for this call. *)
Definition new_element (gid : string) (type : ElementType) (payload : object)
    (s : AppState) : object :=
  text_defaults type payload
    (shape_defaults type payload
       (base_element gid type (length (elements s)) payload)).

Definition addElement (gid : string) (type : ElementType) (payload : object)
    (s : AppState) : AppState :=
  let newElement := new_element gid type payload s in
  let newElements := elements s ++ [newElement] in
  setSelectedId (get newElement "id")
    (addToHistory s newElements (setElements newElements s)).

Definition has_id (id : value) (el : object) : bool := strict_eq (get el "id") id.

Definition updateElement (id : string) (updates : object) (s : AppState)
    : AppState :=
  let newElements :=
    (λ el, if has_id (VStr id) el then spread el updates else el) <$> elements s in
  setElements newElements s.

(** [deleteElement(id?)]: [None] is a call without a string argument. *)
Definition deleteElement (id : option string) (s : AppState) : AppState :=
  let targetId := match id with Some i => VStr i | None => selectedId s end in
  if truthy targetId then
    let newElements := filter (λ el, has_id targetId el = false) (elements s) in
    let st := addToHistory s newElements (setElements newElements s) in
    if strict_eq targetId (selectedId s) then setSelectedId VNull st else st
  else s.

(** The copy [duplicateElement] builds from [elementToCopy]. *)
Definition copy_element (gid : string) (count : nat) (elementToCopy : object)
    : object :=
  <["zIndex" := VNum (Z.of_nat count + 1)]>
  (<["y" := js_plus (get elementToCopy "y") 20]>
  (<["x" := js_plus (get elementToCopy "x") 20]>
  (<["id" := VStr gid]> elementToCopy))).

Definition duplicateElement (gid : string) (id : string) (s : AppState)
    : AppState :=
  match List.find (has_id (VStr id)) (elements s) with
  | Some elementToCopy =>
      let newElement := copy_element gid (length (elements s)) elementToCopy in
      let newElements := elements s ++ [newElement] in
      setSelectedId (get newElement "id")
        (addToHistory s newElements (setElements newElements s))
  | None => s
  end.

(** [selectedElement], computed at every render; [None] is null. *)
Definition selectedElement (s : AppState) : option object :=
  List.find (has_id (selectedId s)) (elements s).

(** ** Commands and runs *)

Inductive command :=
  | CAdd (gid : string) (type : ElementType) (payload : object)
  | CUpdate (id : string) (updates : object)
  | CDelete (id : option string)
  | CDuplicate (gid : string) (id : string)
  | CUndo (confirm : bool)
  | CRedo (confirm : bool)
  | CSelect (id : option string).

Definition step (c : command) (s : AppState) : option AppState :=
  match c with
  | CAdd gid type payload => Some (addElement gid type payload s)
  | CUpdate id updates => Some (updateElement id updates s)
  | CDelete id => Some (deleteElement id s)
  | CDuplicate gid id => Some (duplicateElement gid id s)
  | CUndo confirm => handleUndo confirm s
  | CRedo confirm => handleRedo confirm s
  | CSelect id => Some (setSelectedId (from_option VStr VNull id) s)
  end.

Fixpoint run (cs : list command) (s : AppState) : option AppState :=
  match cs with
  | [] => Some s
  | c :: cs' => s' ← step c s; run cs' s'
  end.

(** The states the application can be in between two commands. *)
Inductive reachable : AppState → Prop :=
  | reachable_startup : reachable startup
  | reachable_step c s s' : reachable s → step c s = Some s' → reachable s'.

(** ** Predicates on states, commands and runs *)

(** The snapshot under the cursor is the current element array. *)
Definition in_sync (s : AppState) : Prop :=
  index (history s) (historyIndex s) = Some (elements s).

Definition cursor_in_range (s : AppState) : Prop :=
  (0 ≤ historyIndex s < Z.of_nat (length (history s)))%Z.

(** The cursor is on the last snapshot. *)
Definition at_tip (s : AppState) : Prop :=
  historyIndex s = (Z.of_nat (length (history s)) - 1)%Z.

(** An id is in the store when some element carries it. *)
Definition present (id : value) (els : list object) : Prop :=
  ∃ el, el ∈ els ∧ has_id id el = true.

(** The selection is null or names an element of the store, as
    [selectedElement] resolves it. *)
Definition selection_valid (s : AppState) : Prop :=
  selectedId s = VNull ∨ is_Some (selectedElement s).

(** [targetId] of [deleteElement]. *)
Definition target_of (id : option string) (s : AppState) : value :=
  match id with Some i => VStr i | None => selectedId s end.

(** The command takes a branch that calls [addToHistory]. *)
Definition commits (c : command) (s : AppState) : bool :=
  match c with
  | CAdd _ _ _ => true
  | CDelete id => truthy (target_of id s)
  | CDuplicate _ id => bool_decide (is_Some (List.find (has_id (VStr id)) (elements s)))
  | _ => false
  end.

(** The command takes the branch of [handleUndo] or [handleRedo] that
    moves the cursor and restores a snapshot. *)
Definition restores (c : command) (s : AppState) : bool :=
  match c with
  | CUndo confirm => canUndo s && negb ((1 <? length (history s))%nat && negb confirm)
  | CRedo confirm => canRedo s && negb ((1 <? length (history s))%nat && negb confirm)
  | _ => false
  end.

Definition is_update (c : command) : bool :=
  match c with CUpdate _ _ => true | _ => false end.

Definition is_time_travel (c : command) : bool :=
  match c with CUndo _ | CRedo _ => true | _ => false end.

Definition no_update (cs : list command) : bool :=
  forallb (λ c, negb (is_update c)) cs.

Definition no_time_travel (cs : list command) : bool :=
  forallb (λ c, negb (is_time_travel c)) cs.

(** The number of commands of a run that commit a snapshot. *)
Fixpoint commit_count (cs : list command) (s : AppState) : nat :=
  match cs with
  | [] => 0
  | c :: cs' =>
      match step c s with
      | Some s' => (if commits c s then 1 else 0) + commit_count cs' s'
      | None => 0
      end
  end.

(** The largest [zIndex] of a store (0 for the empty one). *)
Definition zIndex_of (el : object) : Z :=
  match get el "zIndex" with VNum n => n | _ => 0%Z end.

Definition max_zIndex (els : list object) : Z :=
  foldr (λ el m, Z.max (zIndex_of el) m) 0%Z els.

(** ** Element types along a run *)

(** The ids [generateId()] returns during a run. *)
Definition gids (cs : list command) : list string :=
  cs ≫= λ c, match c with
             | CAdd gid _ _ | CDuplicate gid _ => [gid]
             | _ => []
             end.

(** A command that writes no id and no type by hand: an add whose
    payload has no id field, an update whose fields have neither id nor
    type. *)
Definition tame (c : command) : bool :=
  match c with
  | CAdd _ _ payload => bool_decide (payload !! "id" = None)
  | CUpdate _ updates =>
      bool_decide (updates !! "id" = None) && bool_decide (updates !! "type" = None)
  | _ => true
  end.

(** A run of tame commands in which [generateId()] never repeats. *)
Definition disciplined (cs : list command) : bool :=
  forallb tame cs && bool_decide (NoDup (gids cs)).

(** [T] records, for every id in use, the type field its element was
    created with. *)
Definition registered (T : gmap string (option value)) (el : object) : Prop :=
  ∃ i, el !! "id" = Some (VStr i) ∧ T !! i = Some (el !! "type").

Definition all_registered (T : gmap string (option value)) (s : AppState) : Prop :=
  Forall (registered T) (elements s) ∧ Forall (Forall (registered T)) (history s).

(** ** Concrete elements and states *)

(** [addElement(SHAPE, {})] with generated id e1 on the empty store. *)
Definition shape_e1 : object :=
  list_to_map
    [("id", VStr "e1"); ("type", VStr "shape"); ("x", VNum 200); ("y", VNum 200);
     ("width", VNum 200); ("height", VNum 200); ("rotation", VNum 0);
     ("zIndex", VNum 1); ("opacity", VNum 1);
     ("backgroundColor", VStr "#94a3b8"); ("shapeType", VStr "rectangle")].

(** The same element after [updateElement("e1", {x: 5})]. *)
Definition shape_e1_moved : object := <["x" := VNum 5]> shape_e1.

(** [addElement(TEXT, {})] with generated id e1 on the empty store. *)
Definition text_e1 : object :=
  list_to_map
    [("id", VStr "e1"); ("type", VStr "text"); ("x", VNum 200); ("y", VNum 200);
     ("width", VNum 300); ("height", VNum 100); ("rotation", VNum 0);
     ("zIndex", VNum 1); ("opacity", VNum 1); ("color", VStr "#1e293b")].

(** [addElement(IMAGE, {})] with generated id e3 as third element. *)
Definition image_e3 : object :=
  list_to_map
    [("id", VStr "e3"); ("type", VStr "image"); ("x", VNum 200); ("y", VNum 200);
     ("width", VNum 200); ("height", VNum 200); ("rotation", VNum 0);
     ("zIndex", VNum 3); ("opacity", VNum 1)].

(** The copy [duplicateElement("e3")] makes of it, with generated id e4,
    in a store of one element. *)
Definition image_e4 : object :=
  list_to_map
    [("id", VStr "e4"); ("type", VStr "image"); ("x", VNum 220); ("y", VNum 220);
     ("width", VNum 200); ("height", VNum 200); ("rotation", VNum 0);
     ("zIndex", VNum 2); ("opacity", VNum 1)].

Definition after_add : AppState :=
  mkState [shape_e1] (VStr "e1") [[]; [shape_e1]] 1.

Definition after_add_update : AppState :=
  mkState [shape_e1_moved] (VStr "e1") [[]; [shape_e1]] 1.

Definition after_add_undo : AppState :=
  mkState [] (VStr "e1") [[]; [shape_e1]] 0.

Definition after_add_text : AppState :=
  mkState [text_e1] (VStr "e1") [[]; [text_e1]] 1.

(** Unfolds the setters of a pending state. *)
Ltac unfold_setters :=
  cbn [elements selectedId history historyIndex
       setElements setSelectedId setHistory setHistoryIndex addToHistory].

(** ** Paint order *)

(** The element at position [n] of the array has zIndex [n + 1]. *)
Definition zIndex_positional (els : list object) : Prop :=
  ∀ n el, els !! n = Some el → el !! "zIndex" = Some (VNum (Z.of_nat n + 1)).

(** A command that neither deletes nor writes a zIndex by hand. *)
Definition keeps_zIndex (c : command) : bool :=
  match c with
  | CAdd _ _ payload => bool_decide (payload !! "zIndex" = None)
  | CUpdate _ updates => bool_decide (updates !! "zIndex" = None)
  | CDelete _ => false
  | _ => true
  end.

(** ** Unique ids *)

(** A command that writes no id by hand. *)
Definition keeps_ids (c : command) : bool :=
  match c with
  | CAdd _ _ payload => bool_decide (payload !! "id" = None)
  | CUpdate _ updates => bool_decide (updates !! "id" = None)
  | _ => true
  end.

(** A run that writes no id by hand and in which [generateId()] never
    repeats. *)
Definition fresh_ids (cs : list command) : bool :=
  forallb keeps_ids cs && bool_decide (NoDup (gids cs)).

(** The elements of [els] carry pairwise distinct ids, all of them
    strings of [used]. *)
Definition ids_from (used : list string) (els : list object) : Prop :=
  NoDup ((λ el : object, el !! "id") <$> els) ∧
  Forall (λ el : object, ∃ i, el !! "id" = Some (VStr i) ∧ i ∈ used) els.

(** ** Keyboard shortcuts *)

(** The fields of the [KeyboardEvent] the listener reads. *)
Record KeyboardEvent := mkKey {
  key : string;
  ctrlKey : bool;
  metaKey : bool
}.

(** The handlers as the [keydown] listener holds them: they read the
    state [cl] of the render in which the effect last ran (its
    dependencies are [selectedId], [historyIndex] and [history]) and
    their setters write into the pending state [st]. *)
Definition deleteElement_on (cl : AppState) (id : option string)
    (st : AppState) : AppState :=
  let targetId := match id with Some i => VStr i | None => selectedId cl end in
  if truthy targetId then
    let newElements := filter (λ el, has_id targetId el = false) (elements cl) in
    let st' := addToHistory cl newElements (setElements newElements st) in
    if strict_eq targetId (selectedId cl) then setSelectedId VNull st' else st'
  else st.

Definition handleUndo_on (cl : AppState) (confirm : bool) (st : AppState)
    : option AppState :=
  if (0 <? historyIndex cl)%Z then
    if (1 <? length (history cl))%nat && negb confirm then Some st
    else
      snapshot ← index (history cl) (historyIndex cl - 1);
      Some (setElements snapshot (setHistoryIndex (historyIndex cl - 1) st))
  else Some st.

Definition handleRedo_on (cl : AppState) (confirm : bool) (st : AppState)
    : option AppState :=
  if (historyIndex cl <? Z.of_nat (length (history cl)) - 1)%Z then
    if (1 <? length (history cl))%nat && negb confirm then Some st
    else
      snapshot ← index (history cl) (historyIndex cl + 1);
      Some (setElements snapshot (setHistoryIndex (historyIndex cl + 1) st))
  else Some st.

Definition is_delete_key (e : KeyboardEvent) : bool :=
  String.eqb (key e) "Delete" || String.eqb (key e) "Backspace".

(** [activeTag !== 'INPUT' && activeTag !== 'TEXTAREA'] *)
Definition outside_text_field (activeTag : option string) : bool :=
  negb (bool_decide (activeTag = Some "INPUT")) &&
  negb (bool_decide (activeTag = Some "TEXTAREA")).

Definition is_shortcut (e : KeyboardEvent) (k : string) : bool :=
  (ctrlKey e || metaKey e) && String.eqb (key e) k.

(** [handleKeyDown]; [activeTag] is [document.activeElement?.tagName]
    ([None] for undefined).  The boolean of the result tells whether
    [e.preventDefault()] was called. *)
Definition handleKeyDown (cl : AppState) (e : KeyboardEvent)
    (activeTag : option string) (confirm : bool) (st : AppState)
    : option (AppState * bool) :=
  let st1 :=
    if is_delete_key e && truthy (selectedId cl) then
      if outside_text_field activeTag then deleteElement_on cl None st else st
    else st in
  st2 ← (if is_shortcut e "z" then handleUndo_on cl confirm st1 else Some st1);
  st3 ← (if is_shortcut e "y" then handleRedo_on cl confirm st2 else Some st2);
  Some (st3, is_shortcut e "z" || is_shortcut e "y").

(** * The generative service of [src/unnamed/part_000]

    The four exported functions are asynchronous; each is modelled by the
    outcome of the promise it returns.  What the module does not define
    is taken from a [Runtime]: the SDK's [generateContent], and the
    built-ins [String.prototype.trim] and [JSON.parse].  Strings are
    sequences of one-byte characters. *)

(** A promise resolves with a value or rejects with an [Error] carrying
    a message. *)
Inductive outcome (A : Type) :=
  | Resolved (a : A)
  | Rejected (message : string).
Arguments Resolved {A} a.
Arguments Rejected {A} message.

(** [new GoogleGenAI({ apiKey })] *)
Record GoogleGenAI := mkClient { apiKey : string }.

(** The argument of [client.models.generateContent]. *)
Inductive RequestPart :=
  | InlinePart (mimeType data : string)
  | TextPart (text : string).

Inductive Contents :=
  | PromptText (prompt : string)
  | PromptParts (parts : list RequestPart).

(** [json_config] stands for the [config] object of
    [extractTextFromImage] (JSON response MIME type and schema). *)
Record Request := mkRequest {
  model : string;
  contents : Contents;
  json_config : bool
}.

(** What the module reads of a [GenerateContentResponse]:
    [response.candidates?.[0]?.content?.parts], of each part its
    [inlineData], and [response.text]. *)
Record InlineData := mkInline { inline_mimeType : string; inline_data : string }.
Record Part := mkPart { inlineData : option InlineData }.
Record Response := mkResponse {
  response_parts : option (list Part);
  response_text : option string
}.

(** What [JSON.parse] can return: a primitive, an array or an object.
    [extractTextFromImage] returns it as it comes; its return type
    [ExtractedText[]] is an annotation that nothing checks. *)
#[warnings="-register-all"]
Inductive json :=
  | JPrimitive (v : value)
  | JArray (items : list json)
  | JObject (fields : list (string * json)).

Record Runtime := mkRuntime {
  generateContent : GoogleGenAI → Request → outcome Response;
  trim : string → string;
  JSON_parse : string → outcome json
}.

(** [getClient()]: [API_KEY] is [process.env.API_KEY], [aiClient] the
    module variable; the result is the returned client ([None] for
    null) and the module variable afterwards. *)
Definition getClient (API_KEY : option string) (aiClient : option GoogleGenAI)
    : option GoogleGenAI * option GoogleGenAI :=
  match aiClient with
  | Some client => (Some client, aiClient)
  | None =>
      match API_KEY with
      | Some k =>
          if String.eqb k "" then (None, None)
          else (Some (mkClient k), Some (mkClient k))
      | None => (None, None)
      end
  end.

(** A sequence of [getClient()] calls, one environment value per call:
    the clients returned, in order. *)
Fixpoint getClient_calls (keys : list (option string))
    (aiClient : option GoogleGenAI) : list (option GoogleGenAI) :=
  match keys with
  | [] => []
  | k :: keys' =>
      let (client, aiClient') := getClient k aiClient in
      client :: getClient_calls keys' aiClient'
  end.

(** The double quote character. *)
Definition dquote : string := String (Ascii.ascii_of_nat 34) EmptyString.

Definition data_url (d : InlineData) : string :=
  "data:" +:+ inline_mimeType d +:+ ";base64," +:+ inline_data d.

(** The [for] loop over the parts: the data URL of the first part that
    has [inlineData]. *)
Fixpoint first_inline (parts : list Part) : option string :=
  match parts with
  | [] => None
  | part :: parts' =>
      match inlineData part with
      | Some d => Some (data_url d)
      | None => first_inline parts'
      end
  end.

Definition image_of (response : Response) : option string :=
  match response_parts response with
  | Some parts => first_inline parts
  | None => None
  end.

(** [if (s)] on an optional string. *)
Definition nonempty (s : option string) : option string :=
  match s with
  | Some t => if String.eqb t "" then None else Some t
  | None => None
  end.

Definition generateMagicText (rt : Runtime) (API_KEY : option string)
    (aiClient : option GoogleGenAI) (prompt : string) (currentText : option string)
    : outcome string * option GoogleGenAI :=
  let (client, aiClient') := getClient API_KEY aiClient in
  match client with
  | None => (Resolved "API Key missing", aiClient')
  | Some client =>
      let fullPrompt :=
        match nonempty currentText with
        | Some current =>
            "Rewrite the following text to be " +:+ prompt +:+ ": " +:+ dquote +:+
            current +:+ dquote +:+ ". Return only the rewritten text."
        | None =>
            "Write a short, catchy text for a design about: " +:+ prompt +:+
            ". Return only the text."
        end in
      (match generateContent rt client
               (mkRequest "gemini-2.5-flash" (PromptText fullPrompt) false) with
       | Resolved response =>
           match response_text response with
           | Some t => Resolved (trim rt t)
           | None => Resolved ""
           end
       | Rejected error => Rejected error
       end, aiClient')
  end.

Definition generateMagicImage (rt : Runtime) (API_KEY : option string)
    (aiClient : option GoogleGenAI) (prompt : string)
    : outcome string * option GoogleGenAI :=
  let (client, aiClient') := getClient API_KEY aiClient in
  match client with
  | None => (Rejected "API Key missing", aiClient')
  | Some client =>
      (match generateContent rt client
               (mkRequest "gemini-2.5-flash-image"
                  (PromptParts [TextPart prompt]) false) with
       | Resolved response =>
           match image_of response with
           | Some url => Resolved url
           | None =>
               match nonempty (response_text response) with
               | Some t => Rejected ("Model returned text instead of image: " +:+ t)
               | None => Rejected "No image data generated"
               end
           end
       | Rejected error => Rejected error
       end, aiClient')
  end.

(** [p] is a prefix of [s]: the rest of [s]. *)
Fixpoint strip_prefix (p s : string) : option string :=
  match p, s with
  | EmptyString, _ => Some s
  | String a p', String b s' => if Ascii.eqb a b then strip_prefix p' s' else None
  | String _ _, EmptyString => None
  end.

Fixpoint first_alternative (alts : list string) (s : string) : option string :=
  match alts with
  | [] => None
  | alt :: alts' =>
      match strip_prefix (alt +:+ ";base64,") s with
      | Some rest => Some rest
      | None => first_alternative alts' s
      end
  end.

(** [base64Image.replace(/^data:image\/(png|jpeg|jpg|webp);base64,/, "")] *)
Definition strip_image_prefix (base64Image : string) : string :=
  match strip_prefix "data:image/" base64Image
        ≫= first_alternative ["png"; "jpeg"; "jpg"; "webp"] with
  | Some data => data
  | None => base64Image
  end.

(** The characters [.] does not match: line feed and carriage return. *)
Definition is_line_terminator (c : Ascii.ascii) : bool :=
  Ascii.eqb c (Ascii.ascii_of_nat 10) || Ascii.eqb c (Ascii.ascii_of_nat 13).

(** [(.*?);base64] at the start of [s]: the shortest run of characters
    other than line terminators that [;base64] follows. *)
Fixpoint lazy_capture (s : string) : option string :=
  match strip_prefix ";base64" s with
  | Some _ => Some EmptyString
  | None =>
      match s with
      | EmptyString => None
      | String c s' =>
          if is_line_terminator c then None else String c <$> lazy_capture s'
      end
  end.

(** [s.match(/data:image\/(.*?);base64/)?.[1]]: group 1 of the leftmost
    match. *)
Fixpoint match_mime (s : string) : option string :=
  match strip_prefix "data:image/" s ≫= lazy_capture with
  | Some group => Some group
  | None =>
      match s with
      | EmptyString => None
      | String _ s' => match_mime s'
      end
  end.

(** [... || 'image/png'] *)
Definition image_mimeType (base64Image : string) : string :=
  match nonempty (match_mime base64Image) with
  | Some group => group
  | None => "image/png"
  end.

Definition removeTextFromImage (rt : Runtime) (API_KEY : option string)
    (aiClient : option GoogleGenAI) (base64Image : string)
    : outcome string * option GoogleGenAI :=
  let (client, aiClient') := getClient API_KEY aiClient in
  match client with
  | None => (Rejected "API Key missing", aiClient')
  | Some client =>
      let data := strip_image_prefix base64Image in
      let mimeType := image_mimeType base64Image in
      (match generateContent rt client
               (mkRequest "gemini-2.5-flash-image"
                  (PromptParts
                     [InlinePart mimeType data;
                      TextPart "Remove all text from this image, keeping the background intact."])
                  false) with
       | Resolved response =>
           match image_of response with
           | Some url => Resolved url
           | None => Rejected "No image generated"
           end
       | Rejected error => Rejected error
       end, aiClient')
  end.

Definition extractTextFromImage (rt : Runtime) (API_KEY : option string)
    (aiClient : option GoogleGenAI) (base64Image : string)
    : outcome json * option GoogleGenAI :=
  let (client, aiClient') := getClient API_KEY aiClient in
  match client with
  | None => (Rejected "API Key missing", aiClient')
  | Some client =>
      let data := strip_image_prefix base64Image in
      let mimeType := image_mimeType base64Image in
      (match generateContent rt client
               (mkRequest "gemini-2.5-flash"
                  (PromptParts
                     [InlinePart mimeType data;
                      TextPart "Detect all text in this image. Return a JSON list where each item has 'content' (the text string) and 'box_2d' (ymin, xmin, ymax, xmax) using a 0-1000 scale."])
                  true) with
       | Resolved response =>
           match nonempty (response_text response) with
           | None => Resolved (JArray [])
           | Some text =>
               match JSON_parse rt text with
               | Resolved parsed => Resolved parsed
               | Rejected _ => Resolved (JArray [])
               end
           end
       | Rejected _ => Resolved (JArray [])
       end, aiClient')
  end.

(** A runtime whose model answers every request with one part without
    inline data followed by a PNG. *)
Definition sample_runtime : Runtime :=
  mkRuntime
    (λ _ _, Resolved (mkResponse
       (Some [mkPart None; mkPart (Some (mkInline "image/png" "QUJD"))]) None))
    (λ s, s) (λ _, Rejected "SyntaxError").

(** A runtime whose model answers with the text "5" and whose
    [JSON.parse] reads it as the number 5. *)
Definition number_runtime : Runtime :=
  mkRuntime
    (λ _ _, Resolved (mkResponse None (Some "5")))
    (λ s, s) (λ _, Resolved (JPrimitive (VNum 5))).

Definition colon : Ascii.ascii := Ascii.ascii_of_nat 58.

(** [c] occurs in [s]. *)
Fixpoint contains_char (c : Ascii.ascii) (s : string) : bool :=
  match s with
  | EmptyString => false
  | String a s' => Ascii.eqb a c || contains_char c s'
  end.

(** * Lemmas *)

(** ** Numbers: sums of safe integers are exact *)

Section Binary64.
Import SpecFloat.

Lemma digits2_pos_size p : digits2_pos p = Pos.size p.
Proof. induction p; cbn; congruence. Qed.

Lemma Zdigits2_log2 m : (0 < m)%Z → Zdigits2 m = (Z.log2 m + 1)%Z.
Proof.
  destruct m as [|p|p]; try lia. intros _. cbn [Zdigits2].
  rewrite digits2_pos_size. destruct p; cbn; lia.
Qed.


Lemma shr_1_even (q : Z) :
  shr_1 (Build_shr_record (q * 2) false false) = Build_shr_record q false false.
Proof. rewrite Z.mul_comm. by destruct q. Qed.

Lemma iter_pos_shr_1 (k : positive) (q : Z) :
  iter_pos shr_1 k (Build_shr_record (q * 2 ^ Zpos k) false false) =
  Build_shr_record q false false.
Proof.
  revert q. induction k as [k IH|k IH|]; intros q; cbn [iter_pos].
  - replace (q * 2 ^ Z.pos k~1)%Z with (((q * 2 ^ Z.pos k) * 2 ^ Z.pos k) * 2)%Z.
    + by rewrite shr_1_even, !IH.
    + replace (Z.pos k~1) with (Z.pos k + Z.pos k + 1)%Z by lia.
      rewrite !Z.pow_add_r, Z.pow_1_r by lia. ring.
  - replace (q * 2 ^ Z.pos k~0)%Z with ((q * 2 ^ Z.pos k) * 2 ^ Z.pos k)%Z.
    + by rewrite !IH.
    + replace (Z.pos k~0) with (Z.pos k + Z.pos k)%Z by lia.
      rewrite Z.pow_add_r by lia. ring.
  - change (2 ^ 1)%Z with 2%Z. apply shr_1_even.
Qed.

Lemma fexp_small (w : Z) :
  (0 < w < 2 ^ 53)%Z →
  fexp 53 1024 (Z.log2 w + 1) = (Z.log2 w - 52)%Z ∧ (0 ≤ Z.log2 w ≤ 52)%Z.
Proof.
  intros [H0 H1].
  assert (Z.log2 w < 53)%Z by (apply Z.log2_lt_pow2; lia).
  pose proof (Z.log2_nonneg w).
  unfold fexp, emin. split; lia.
Qed.

Lemma Zdigits2_scaled (w j : Z) :
  (0 < w)%Z → (0 ≤ j)%Z → Zdigits2 (w * 2 ^ j) = (j + Z.log2 w + 1)%Z.
Proof.
  intros Hw Hj. rewrite Zdigits2_log2 by (apply Z.mul_pos_pos; lia).
  by rewrite Z.log2_mul_pow2 by lia.
Qed.

Lemma binary_round_aux_exact (s : bool) (e w : Z) :
  (0 < w < 2 ^ 53)%Z → (e ≤ 0)%Z →
  ∃ m' e', binary_round_aux 53 1024 s (w * 2 ^ (- e)) e loc_Exact =
             S754_finite s m' e' ∧
           (e' ≤ 0)%Z ∧ Zpos m' = (w * 2 ^ (- e'))%Z.
Proof.
  intros Hw He.
  destruct (fexp_small w Hw) as [HF Hl].
  assert (∀ j, (0 ≤ j)%Z → ∃ p, (w * 2 ^ j)%Z = Zpos p) as Hpos.
  { intros j Hj. assert (0 < w * 2 ^ j)%Z by (apply Z.mul_pos_pos; lia).
    destruct (w * 2 ^ j)%Z as [|p|p]; try lia. by exists p. }
  unfold binary_round_aux, shr_fexp.
  rewrite Zdigits2_scaled by lia.
  replace (- e + Z.log2 w + 1 + e)%Z with (Z.log2 w + 1)%Z by lia.
  rewrite HF. cbn [shr_record_of_loc].
  destruct (Z.log2 w - 52 - e)%Z as [|k|k] eqn:Hk; cbn [shr].
  - cbn [loc_of_shr_record shr_m round_nearest_even].
    rewrite Zdigits2_scaled by lia.
    replace (- e + Z.log2 w + 1 + e)%Z with (Z.log2 w + 1)%Z by lia.
    rewrite HF, Hk. cbn [shr_record_of_loc shr shr_m].
    destruct (Hpos (- e)%Z) as [p Hp]; [lia|]. rewrite Hp.
    rewrite (proj2 (Z.leb_le _ _)) by lia. exists p, e. by rewrite <- Hp.
  - replace (w * 2 ^ (- e))%Z with ((w * 2 ^ (52 - Z.log2 w)) * 2 ^ Z.pos k)%Z.
    2:{ rewrite <- Z.mul_assoc, <- Z.pow_add_r by lia. do 2 f_equal. lia. }
    rewrite iter_pos_shr_1.
    cbn [loc_of_shr_record shr_m round_nearest_even].
    rewrite Zdigits2_scaled by lia.
    replace (52 - Z.log2 w + Z.log2 w + 1 + (e + Z.pos k))%Z
      with (Z.log2 w + 1)%Z by lia.
    rewrite HF.
    replace (Z.log2 w - 52 - (e + Z.pos k))%Z with 0%Z by lia.
    cbn [shr_record_of_loc shr shr_m].
    destruct (Hpos (52 - Z.log2 w)%Z) as [p Hp]; [lia|]. rewrite Hp.
    rewrite (proj2 (Z.leb_le _ _)) by lia. exists p, (e + Z.pos k)%Z.
    split; [done|]. split; [lia|]. rewrite <- Hp. do 2 f_equal. lia.
  - cbn [loc_of_shr_record shr_m round_nearest_even].
    rewrite Zdigits2_scaled by lia.
    replace (- e + Z.log2 w + 1 + e)%Z with (Z.log2 w + 1)%Z by lia.
    rewrite HF, Hk. cbn [shr_record_of_loc shr shr_m].
    destruct (Hpos (- e)%Z) as [p Hp]; [lia|]. rewrite Hp.
    rewrite (proj2 (Z.leb_le _ _)) by lia. exists p, e. by rewrite <- Hp.
Qed.

Lemma Pos_iter_xO (p d : positive) :
  Zpos (Pos.iter xO p d) = (Zpos p * 2 ^ Zpos d)%Z.
Proof.
  induction d as [|d IH] using Pos.peano_ind.
  - cbn. lia.
  - rewrite Pos.iter_succ, Pos2Z.inj_xO, IH, Pos2Z.inj_succ, Z.pow_succ_r by lia.
    ring.
Qed.

Lemma binary_round_exact (s : bool) (p : positive) (e w : Z) :
  (0 < w < 2 ^ 53)%Z → (e ≤ 0)%Z → Zpos p = (w * 2 ^ (- e))%Z →
  ∃ m' e', binary_round 53 1024 s p e = S754_finite s m' e' ∧
           (e' ≤ 0)%Z ∧ Zpos m' = (w * 2 ^ (- e'))%Z.
Proof.
  intros Hw He Hp. destruct (fexp_small w Hw) as [HF Hl].
  unfold binary_round, shl_align.
  change (Zpos (digits2_pos p)) with (Zdigits2 (Zpos p)).
  rewrite Hp, Zdigits2_scaled by lia.
  replace (- e + Z.log2 w + 1 + e)%Z with (Z.log2 w + 1)%Z by lia.
  rewrite HF.
  destruct (Z.log2 w - 52 - e)%Z as [|d|d] eqn:Hd.
  - rewrite Hp. by apply binary_round_aux_exact.
  - rewrite Hp. by apply binary_round_aux_exact.
  - rewrite Pos_iter_xO, Hp.
    replace (w * 2 ^ (- e) * 2 ^ Z.pos d)%Z with (w * 2 ^ (- (Z.log2 w - 52)))%Z.
    + apply binary_round_aux_exact; lia.
    + rewrite <- Z.mul_assoc, <- Z.pow_add_r by lia. do 2 f_equal. lia.
Qed.

Lemma binary_normalize_holds (m e z : Z) :
  (e ≤ 0)%Z → m = (z * 2 ^ (- e))%Z → (- 2 ^ 53 < z < 2 ^ 53)%Z →
  holds (binary_normalize 53 1024 m e false) z.
Proof.
  intros He Hm Hz. assert (0 < 2 ^ (- e))%Z by (apply Z.pow_pos_nonneg; lia).
  unfold binary_normalize. destruct m as [|p|p].
  - cbn. nia.
  - destruct (binary_round_exact false p e z) as (m' & e' & -> & He' & Hm');
      [nia|done|done|].
    cbn. split; [done|]. exists z. split; [nia|done].
  - destruct (binary_round_exact true p e (- z)) as (m' & e' & -> & He' & Hm');
      [nia|done|lia|].
    cbn. split; [done|]. exists (- z)%Z. split; [nia|]. split; [done|lia].
Qed.

Lemma binary64_holds (z : Z) : safe_integer z → holds (binary64 z) z.
Proof.
  intros Hz. apply binary_normalize_holds; [done| |done].
  change (2 ^ (- 0))%Z with 1%Z. lia.
Qed.

Lemma shl_align_holds (m : positive) (e ez w : Z) :
  (ez ≤ e)%Z → (e ≤ 0)%Z → Zpos m = (w * 2 ^ (- e))%Z →
  Zpos (shl_align m e ez).1 = (w * 2 ^ (- ez))%Z.
Proof.
  intros Hez He Hm. unfold shl_align.
  destruct (ez - e)%Z as [|d|d] eqn:Hd; cbn [fst]; try lia.
  - replace ez with e by lia. done.
  - rewrite Pos_iter_xO, Hm, <- Z.mul_assoc, <- Z.pow_add_r by lia.
    do 2 f_equal. lia.
Qed.

Lemma SFadd_holds (x y : spec_float) (a n : Z) :
  holds x a → holds y n → safe_integer (a + n) →
  holds (SFadd 53 1024 x y) (a + n).
Proof.
  intros Hx Hy Hs.
  destruct x as [sx|sx| |sx mx ex], y as [sy|sy| |sy my ey];
    cbn [holds] in Hx, Hy; try done.
  - subst. by destruct sx, sy.
  - subst. done.
  - subst. cbn [SFadd]. by rewrite Z.add_0_r.
  - destruct Hx as (Hex & wx & Hwx & Hmx & ->).
    destruct Hy as (Hey & wy & Hwy & Hmy & ->).
    cbn [SFadd].
    apply binary_normalize_holds; [lia| |done].
    rewrite (shl_align_holds mx ex _ wx), (shl_align_holds my ey _ wy)
      by (done || lia).
    destruct sx, sy; cbn [cond_Zopp]; ring.
Qed.

Lemma number_of_holds (f : spec_float) (z : Z) : holds f z → number_of f = VNum z.
Proof.
  destruct f as [s|s| |s m e]; cbn [holds number_of]; try done.
  - by intros ->.
  - intros (He & w & Hw & Hm & ->).
    assert (0 < 2 ^ (- e))%Z by (apply Z.pow_pos_nonneg; lia).
    destruct (Z.leb_spec 0 e).
    + replace e with 0%Z in * by lia. do 2 f_equal.
      change (2 ^ (- 0))%Z with 1%Z in Hm. change (2 ^ 0)%Z with 1%Z. lia.
    + rewrite Hm, Z.mod_mul, Z.div_mul by lia. done.
Qed.

End Binary64.

Lemma safe_integer_20 : safe_integer 20.
Proof. split; reflexivity. Qed.

(** Within the safe integers the sum is the sum of the integers. *)
Lemma js_plus_safe (a n : Z) :
  safe_integer a → safe_integer n → safe_integer (a + n) →
  js_plus (VNum a) n = VNum (a + n).
Proof.
  intros Ha Hn Hs. unfold js_plus.
  apply number_of_holds, SFadd_holds; [by apply binary64_holds..|done].
Qed.

(** Beyond them it is rounded: 2^53 - 1 plus 20 is 2^53 + 20, not
    2^53 + 19. *)
Example js_plus_rounds :
  js_plus (VNum 9007199254740991) 20 = VNum 9007199254741012.
Proof. vm_compute. reflexivity. Qed.

(** 10.5 + 20 = 30.5: the fractions 5910974510923776 / 2^49 and
    8584986789675008 / 2^48. *)
Example js_plus_fraction :
  js_plus (VDouble (SpecFloat.S754_finite false 5910974510923776 (-49))) 20 =
  VDouble (SpecFloat.S754_finite false 8584986789675008 (-48)).
Proof. vm_compute. reflexivity. Qed.


Example startup_state : startup = mkState [] VNull [[]] 0.
Proof. reflexivity. Qed.

Example scenario_1 :
  run [CAdd "e1" SHAPE ∅] startup =
  Some (mkState [new_element "e1" SHAPE ∅ startup] (VStr "e1")
          [[]; [new_element "e1" SHAPE ∅ startup]] 1).
Proof. vm_compute. reflexivity. Qed.

(** ** Arrays *)

Lemma index_nat {A} (arr : list A) (n : nat) : index arr (Z.of_nat n) = arr !! n.
Proof.
  unfold index. destruct (Z.ltb_spec (Z.of_nat n) 0); [lia|].
  by rewrite Nat2Z.id.
Qed.

Lemma index_Some_range {A} (arr : list A) (i : Z) (x : A) :
  index arr i = Some x → (0 ≤ i < Z.of_nat (length arr))%Z.
Proof.
  unfold index. destruct (Z.ltb_spec i 0) as [Hneg|Hpos]; [done|].
  intros Hlt%lookup_lt_Some. lia.
Qed.

Lemma index_in_range {A} (arr : list A) (i : Z) :
  (0 ≤ i < Z.of_nat (length arr))%Z → is_Some (index arr i).
Proof.
  intros [H0 H1]. unfold index. destruct (Z.ltb_spec i 0); [lia|].
  apply lookup_lt_is_Some. lia.
Qed.

Lemma slice0_nonneg {A} (arr : list A) (e : Z) :
  (0 ≤ e)%Z → slice0 arr e = take (Z.to_nat e) arr.
Proof.
  intros He. unfold slice0. destruct (Z.ltb_spec e 0); [lia|].
  destruct (Z.le_gt_cases e (Z.of_nat (length arr))).
  - by rewrite Z.min_l.
  - rewrite Z.min_r by lia. rewrite Nat2Z.id.
    rewrite !take_ge; [done|lia..].
Qed.

Lemma slice0_length {A} (arr : list A) (e : Z) :
  (0 ≤ e ≤ Z.of_nat (length arr))%Z → Z.of_nat (length (slice0 arr e)) = e.
Proof.
  intros He. rewrite slice0_nonneg by lia. rewrite length_take. lia.
Qed.

(** ** [addToHistory] *)

Lemma addToHistory_elements s newElements st :
  elements (addToHistory s newElements st) = elements st.
Proof. reflexivity. Qed.

Lemma addToHistory_selectedId s newElements st :
  selectedId (addToHistory s newElements st) = selectedId st.
Proof. reflexivity. Qed.

Lemma addToHistory_history s newElements st :
  history (addToHistory s newElements st) =
  slice0 (history s) (historyIndex s + 1) ++ [newElements].
Proof. reflexivity. Qed.

Lemma addToHistory_index s newElements st :
  historyIndex (addToHistory s newElements st) =
  Z.of_nat (length (slice0 (history s) (historyIndex s + 1))).
Proof.
  unfold addToHistory. cbn. rewrite length_app. cbn. lia.
Qed.

(** A commit leaves the cursor on the snapshot it has just pushed,
    whatever the state before. *)
Lemma addToHistory_cursor s newElements st :
  cursor_in_range (addToHistory s newElements st).
Proof.
  unfold cursor_in_range. rewrite addToHistory_index, addToHistory_history.
  rewrite length_app. cbn. lia.
Qed.

Lemma addToHistory_in_sync s newElements st :
  elements st = newElements → in_sync (addToHistory s newElements st).
Proof.
  intros <-. unfold in_sync.
  rewrite addToHistory_index, addToHistory_history, addToHistory_elements.
  rewrite index_nat. by rewrite list_lookup_middle.
Qed.

Lemma addToHistory_length s newElements st :
  cursor_in_range s →
  Z.of_nat (length (history (addToHistory s newElements st))) = (historyIndex s + 2)%Z.
Proof.
  intros [H0 H1]. rewrite addToHistory_history, length_app. cbn.
  rewrite Nat2Z.inj_add, slice0_length by lia. lia.
Qed.

(** ** [handleUndo] and [handleRedo] *)

Lemma handleUndo_cases confirm s s' :
  handleUndo confirm s = Some s' →
  (restores (CUndo confirm) s = false ∧ s' = s) ∨
  (restores (CUndo confirm) s = true ∧
   ∃ snapshot, index (history s) (historyIndex s - 1) = Some snapshot ∧
     s' = mkState snapshot (selectedId s) (history s) (historyIndex s - 1)).
Proof.
  unfold handleUndo, restores, canUndo.
  destruct (0 <? historyIndex s)%Z; cbn [andb]; [|left; split; congruence].
  destruct ((1 <? length (history s))%nat && negb confirm); cbn [negb].
  - left; split; congruence.
  - destruct (index (history s) (historyIndex s - 1)) as [snapshot|] eqn:E;
      cbn; [|done].
    intros [= <-]. right. split; [done|]. by exists snapshot.
Qed.

Lemma handleRedo_cases confirm s s' :
  handleRedo confirm s = Some s' →
  (restores (CRedo confirm) s = false ∧ s' = s) ∨
  (restores (CRedo confirm) s = true ∧
   ∃ snapshot, index (history s) (historyIndex s + 1) = Some snapshot ∧
     s' = mkState snapshot (selectedId s) (history s) (historyIndex s + 1)).
Proof.
  unfold handleRedo, restores, canRedo.
  destruct (historyIndex s <? Z.of_nat (length (history s)) - 1)%Z;
    cbn [andb]; [|left; split; congruence].
  destruct ((1 <? length (history s))%nat && negb confirm); cbn [negb].
  - left; split; congruence.
  - destruct (index (history s) (historyIndex s + 1)) as [snapshot|] eqn:E;
      cbn; [|done].
    intros [= <-]. right. split; [done|]. by exists snapshot.
Qed.

Lemma handleUndo_history confirm s s' :
  handleUndo confirm s = Some s' → history s' = history s.
Proof.
  intros [[_ ->]|[_ (snapshot & _ & ->)]]%handleUndo_cases; reflexivity.
Qed.

Lemma handleRedo_history confirm s s' :
  handleRedo confirm s = Some s' → history s' = history s.
Proof.
  intros [[_ ->]|[_ (snapshot & _ & ->)]]%handleRedo_cases; reflexivity.
Qed.

Lemma handleUndo_selectedId confirm s s' :
  handleUndo confirm s = Some s' → selectedId s' = selectedId s.
Proof.
  intros [[_ ->]|[_ (snapshot & _ & ->)]]%handleUndo_cases; reflexivity.
Qed.

Lemma handleRedo_selectedId confirm s s' :
  handleRedo confirm s = Some s' → selectedId s' = selectedId s.
Proof.
  intros [[_ ->]|[_ (snapshot & _ & ->)]]%handleRedo_cases; reflexivity.
Qed.

(** ** The commands that commit *)

Lemma deleteElement_cases id s :
  (commits (CDelete id) s = false ∧ deleteElement id s = s) ∨
  (commits (CDelete id) s = true ∧
   let newElements :=
     filter (λ el, has_id (target_of id s) el = false) (elements s) in
   elements (deleteElement id s) = newElements ∧
   history (deleteElement id s) =
     slice0 (history s) (historyIndex s + 1) ++ [newElements] ∧
   deleteElement id s =
     (if strict_eq (target_of id s) (selectedId s)
      then setSelectedId VNull else λ st, st)
       (addToHistory s newElements (setElements newElements s))).
Proof.
  unfold deleteElement, commits. fold (target_of id s).
  destruct (truthy (target_of id s)); [right|left]; [|done].
  split; [done|]. cbn zeta.
  destruct (strict_eq (target_of id s) (selectedId s)); done.
Qed.

Lemma duplicateElement_cases gid id s :
  (commits (CDuplicate gid id) s = false ∧ duplicateElement gid id s = s) ∨
  (commits (CDuplicate gid id) s = true ∧
   ∃ elementToCopy,
     List.find (has_id (VStr id)) (elements s) = Some elementToCopy ∧
     let newElements :=
       elements s ++ [copy_element gid (length (elements s)) elementToCopy] in
     duplicateElement gid id s =
       setSelectedId (VStr gid)
         (addToHistory s newElements (setElements newElements s))).
Proof.
  unfold duplicateElement, commits.
  destruct (List.find (has_id (VStr id)) (elements s)) as [src|] eqn:E.
  - right. split; [by apply bool_decide_eq_true|]. exists src. split; [done|].
    cbn zeta. f_equal. unfold copy_element, get.
    rewrite lookup_insert_ne, lookup_insert_ne, lookup_insert_ne by done.
    by rewrite lookup_insert_eq.
  - left. split; [|done]. apply bool_decide_eq_false. by intros [? ?].
Qed.

(** ** The cursor and the snapshot under it *)

(** The cursor stays inside the history under every command. *)
Lemma step_cursor c s s' :
  cursor_in_range s → step c s = Some s' → cursor_in_range s'.
Proof.
  intros Hr. destruct c as [gid ty p|id u|id|gid id|b|b|id]; cbn.
  - intros [= <-]. apply addToHistory_cursor.
  - intros [= <-]. exact Hr.
  - intros [= <-].
    destruct (deleteElement_cases id s) as [[_ ->]|[_ (_ & _ & ->)]]; [done|].
    destruct (strict_eq _ _); apply addToHistory_cursor.
  - intros [= <-].
    destruct (duplicateElement_cases gid id s) as [[_ ->]|[_ (src & _ & ->)]];
      [done|]. apply addToHistory_cursor.
  - intros [[_ ->]|[He (snapshot & Hi & ->)]]%handleUndo_cases; [done|].
    apply index_Some_range in Hi. destruct Hr. split; cbn; lia.
  - intros [[_ ->]|[He (snapshot & Hi & ->)]]%handleRedo_cases; [done|].
    apply index_Some_range in Hi. split; cbn; lia.
  - intros [= <-]. exact Hr.
Qed.

Lemma startup_cursor : cursor_in_range startup.
Proof. rewrite startup_state. unfold cursor_in_range. cbn. lia. Qed.

Lemma reachable_cursor s : reachable s → cursor_in_range s.
Proof.
  induction 1 as [|c s s' _ IH Hstep]; [apply startup_cursor|].
  by eapply step_cursor.
Qed.

(** No command stores undefined as the element array: with the cursor in
    range every command returns a state. *)
Lemma step_total c s : cursor_in_range s → is_Some (step c s).
Proof.
  intros [H0 H1]. destruct c as [gid ty p|id u|id|gid id|b|b|id]; cbn; try done.
  - unfold handleUndo. destruct (Z.ltb_spec 0 (historyIndex s)); [|done].
    destruct (_ && _); [done|].
    destruct (index_in_range (history s) (historyIndex s - 1)) as [x ->];
      [lia|done].
  - unfold handleRedo.
    destruct (Z.ltb_spec (historyIndex s) (Z.of_nat (length (history s)) - 1));
      [|done].
    destruct (_ && _); [done|].
    destruct (index_in_range (history s) (historyIndex s + 1)) as [x ->];
      [lia|done].
Qed.

Lemma run_app cs1 cs2 s :
  run (cs1 ++ cs2) s = s' ← run cs1 s; run cs2 s'.
Proof.
  revert s. induction cs1 as [|c cs1 IH]; intros s; cbn; [done|].
  destruct (step c s); cbn; [apply IH|done].
Qed.

Lemma run_reachable cs s s' : reachable s → run cs s = Some s' → reachable s'.
Proof.
  revert s. induction cs as [|c cs IH]; intros s Hs; cbn.
  - by intros [= <-].
  - destruct (step c s) as [s1|] eqn:E; cbn; [|done].
    apply IH. by eapply reachable_step.
Qed.

Lemma run_total cs s : cursor_in_range s → is_Some (run cs s).
Proof.
  revert s. induction cs as [|c cs IH]; intros s Hs; cbn; [done|].
  destruct (step_total c s Hs) as [s1 E]. rewrite E. cbn.
  apply IH. by eapply step_cursor.
Qed.

(** After a commit or a restore the snapshot under the cursor is the
    element array. *)
Lemma step_establishes_sync c s s' :
  step c s = Some s' → commits c s || restores c s = true → in_sync s'.
Proof.
  destruct c as [gid ty p|id u|id|gid id|b|b|id]; cbn [step commits restores orb];
    try done.
  - intros [= <-] _. unfold addElement. by apply addToHistory_in_sync.
  - intros [= <-]. rewrite orb_false_r. intros Hc.
    destruct (deleteElement_cases id s) as [[Hn _]|[_ (_ & _ & ->)]];
      [cbn [commits restores] in Hn; congruence|].
    destruct (strict_eq _ _); by apply addToHistory_in_sync.
  - intros [= <-]. rewrite orb_false_r. intros Hc.
    destruct (duplicateElement_cases gid id s) as [[Hn _]|[_ (src & _ & ->)]];
      [cbn [commits restores] in Hn; congruence|]. by apply addToHistory_in_sync.
  - intros [[Hn _]|[_ (snapshot & Hi & ->)]]%handleUndo_cases Hc;
      [cbn [commits restores] in Hn; congruence|]. exact Hi.
  - intros [[Hn _]|[_ (snapshot & Hi & ->)]]%handleRedo_cases Hc;
      [cbn [commits restores] in Hn; congruence|]. exact Hi.
Qed.

(** Only [updateElement] can take the element array away from the
    snapshot under the cursor. *)
Lemma step_preserves_sync c s s' :
  step c s = Some s' → is_update c = false → in_sync s → in_sync s'.
Proof.
  intros Hstep Hu Hs.
  destruct (commits c s || restores c s) eqn:E;
    [by eapply step_establishes_sync|].
  apply orb_false_iff in E as [Ec Er].
  destruct c as [gid ty p|id u|id|gid id|b|b|id]; cbn [step is_update commits] in Hstep, Hu, Ec; try done.
  - injection Hstep as <-.
    by destruct (deleteElement_cases id s) as [[_ ->]|[Hn _]];
      [|cbn [commits restores] in Hn; congruence].
  - injection Hstep as <-.
    by destruct (duplicateElement_cases gid id s) as [[_ ->]|[Hn _]];
      [|cbn [commits restores] in Hn; congruence].
  - by apply handleUndo_cases in Hstep as [[_ ->]|[Hn _]]; [|congruence].
  - by apply handleRedo_cases in Hstep as [[_ ->]|[Hn _]]; [|congruence].
  - by injection Hstep as <-.
Qed.

(** ** History length *)

Lemma step_commit c s s' :
  cursor_in_range s → step c s = Some s' → commits c s = true →
  Z.of_nat (length (history s')) = (historyIndex s + 2)%Z ∧ at_tip s'.
Proof.
  intros Hr Hstep Hc.
  assert (∀ newElements st, 
    Z.of_nat (length (history (addToHistory s newElements st))) = (historyIndex s + 2)%Z
    ∧ at_tip (addToHistory s newElements st)) as Hadd.
  { intros newElements st. split; [by apply addToHistory_length|].
    unfold at_tip. rewrite addToHistory_index, addToHistory_history.
    rewrite length_app. cbn. lia. }
  destruct c as [gid ty p|id u|id|gid id|b|b|id];
    cbn [step commits] in Hstep, Hc; try done; injection Hstep as <-.
  - apply Hadd.
  - destruct (deleteElement_cases id s) as [[Hn _]|[_ (_ & _ & ->)]];
      [cbn [commits restores] in Hn; congruence|].
    destruct (strict_eq _ _); apply Hadd.
  - destruct (duplicateElement_cases gid id s) as [[Hn _]|[_ (src & _ & ->)]];
      [cbn [commits restores] in Hn; congruence|]. apply Hadd.
Qed.

Lemma step_no_commit c s s' :
  step c s = Some s' → commits c s = false →
  history s' = history s ∧ (is_time_travel c = false → historyIndex s' = historyIndex s).
Proof.
  intros Hstep Hc.
  destruct c as [gid ty p|id u|id|gid id|b|b|id];
    cbn [step commits is_time_travel] in Hstep, Hc |- *; try done.
  - by injection Hstep as <-.
  - injection Hstep as <-.
    by destruct (deleteElement_cases id s) as [[_ ->]|[Hn _]];
      [|cbn [commits restores] in Hn; congruence].
  - injection Hstep as <-.
    by destruct (duplicateElement_cases gid id s) as [[_ ->]|[Hn _]];
      [|cbn [commits restores] in Hn; congruence].
  - split; [by eapply handleUndo_history|done].
  - split; [by eapply handleRedo_history|done].
  - by injection Hstep as <-.
Qed.

Lemma run_history_length cs s s' :
  cursor_in_range s → run cs s = Some s' →
  length (history s') ≤ length (history s) + commit_count cs s ∧
  (forallb (λ c, negb (is_time_travel c)) cs = true → at_tip s →
   length (history s') = length (history s) + commit_count cs s).
Proof.
  revert s. induction cs as [|c cs IH]; intros s Hr; cbn [run commit_count forallb].
  - intros [= <-]. lia.
  - destruct (step c s) as [s1|] eqn:Hstep; cbn; [|done].
    intros Hrun. pose proof (step_cursor _ _ _ Hr Hstep) as Hr1.
    destruct (IH s1 Hr1 Hrun) as [Hle Heq].
    destruct (commits c s) eqn:Hc.
    + destruct (step_commit _ _ _ Hr Hstep Hc) as [Hlen Htip].
      destruct Hr as [H0 H1]. split; [lia|].
      intros [Hc1 Hcs]%andb_true_iff Hs. unfold at_tip in Hs.
      rewrite (Heq Hcs Htip). lia.
    + destruct (step_no_commit _ _ _ Hstep Hc) as [Hh Hi].
      rewrite Hh in *. split; [lia|].
      intros [Hc1 Hcs]%andb_true_iff Hs. apply negb_true_iff in Hc1.
      apply Heq; [done|]. unfold at_tip in *. rewrite Hh, Hi by done. done.
Qed.

(** ** Objects *)

Lemma get_lookup (o : object) k v : o !! k = Some v → get o k = v.
Proof. unfold get. by intros ->. Qed.

Lemma spread_lookup (a b : object) k :
  spread a b !! k = match b !! k with Some v => Some v | None => a !! k end.
Proof.
  unfold spread. rewrite lookup_union.
  destruct (b !! k), (a !! k); reflexivity.
Qed.

Lemma base_element_payload gid type count (payload : object) k v :
  payload !! k = Some v → base_element gid type count payload !! k = Some v.
Proof. intros H. unfold base_element. by rewrite spread_lookup, H. Qed.

Lemma shape_defaults_applied payload el :
  truthy (get payload "backgroundColor") = false →
  shape_defaults SHAPE payload el =
  <["shapeType" := ShapeType_value RECTANGLE]> (<["backgroundColor" := slate_400]> el).
Proof. unfold shape_defaults. by intros ->. Qed.

Lemma shape_defaults_skipped type payload el :
  type ≠ SHAPE ∨ truthy (get payload "backgroundColor") = true →
  shape_defaults type payload el = el.
Proof.
  unfold shape_defaults. intros [H| ->].
  - by rewrite bool_decide_eq_false_2.
  - by rewrite andb_false_r.
Qed.

Lemma text_defaults_applied payload el :
  truthy (get payload "color") = false →
  text_defaults TEXT payload el = <["color" := slate_800]> el.
Proof. unfold text_defaults. by intros ->. Qed.

Lemma text_defaults_skipped type payload el :
  type ≠ TEXT ∨ truthy (get payload "color") = true →
  text_defaults type payload el = el.
Proof.
  unfold text_defaults. intros [H| ->].
  - by rewrite bool_decide_eq_false_2.
  - by rewrite andb_false_r.
Qed.

(** The two [if] statements write at most [backgroundColor],
    [shapeType] and [color]. *)
Lemma shape_defaults_other type payload el k :
  k ≠ "backgroundColor" → k ≠ "shapeType" →
  shape_defaults type payload el !! k = el !! k.
Proof.
  intros H1 H2. unfold shape_defaults. destruct (_ && _); [|done].
  by rewrite !lookup_insert_ne.
Qed.

Lemma text_defaults_other type payload el k :
  k ≠ "color" → text_defaults type payload el !! k = el !! k.
Proof.
  intros H1. unfold text_defaults. destruct (_ && _); [|done].
  by rewrite lookup_insert_ne.
Qed.

Lemma new_element_other gid type payload s k :
  k ≠ "backgroundColor" → k ≠ "shapeType" → k ≠ "color" →
  new_element gid type payload s !! k =
  base_element gid type (length (elements s)) payload !! k.
Proof.
  intros H1 H2 H3. unfold new_element.
  by rewrite text_defaults_other, shape_defaults_other.
Qed.

Lemma addElement_elements gid type payload s :
  elements (addElement gid type payload s) =
  elements s ++ [new_element gid type payload s].
Proof. reflexivity. Qed.

(** ** Lists of elements *)

Lemma find_some_has {A} (f : A → bool) (l : list A) x :
  x ∈ l → f x = true → is_Some (List.find f l).
Proof.
  induction 1 as [x l|x y l _ IH]; cbn; intros Hx.
  - by rewrite Hx.
  - destruct (f y); [done|by apply IH].
Qed.

Lemma find_some_elem {A} (f : A → bool) (l : list A) x :
  List.find f l = Some x → x ∈ l ∧ f x = true.
Proof.
  induction l as [|y l IH]; cbn; [done|].
  destruct (f y) eqn:E.
  - intros [= <-]. split; [left|done].
  - intros [Hl Hx]%IH. split; [by right|done].
Qed.

Lemma find_none_all {A} (f : A → bool) (l : list A) :
  (∀ x, x ∈ l → f x = false) → List.find f l = None.
Proof.
  induction l as [|y l IH]; cbn; [done|]. intros H.
  rewrite (H y) by left. apply IH. intros x Hx. apply H. by right.
Qed.

Lemma strict_eq_true a b : strict_eq a b = true → a = b.
Proof.
  unfold strict_eq.
  destruct a, b; try done; by intros ?%bool_decide_eq_true.
Qed.

Lemma strict_eq_sym a b : strict_eq a b = strict_eq b a.
Proof.
  unfold strict_eq. destruct a, b; try done; apply bool_decide_ext; naive_solver.
Qed.

Lemma strict_eq_refl_truthy a : truthy a = true → strict_eq a a = true.
Proof. destruct a; try done; intros _; by apply bool_decide_eq_true. Qed.

Lemma copy_element_other gid count (src : object) k :
  k ≠ "id" → k ≠ "x" → k ≠ "y" → k ≠ "zIndex" →
  copy_element gid count src !! k = src !! k.
Proof.
  intros. unfold copy_element. by rewrite !lookup_insert_ne.
Qed.

Lemma updateElement_absent id updates s :
  ¬ present (VStr id) (elements s) → updateElement id updates s = s.
Proof.
  intros Hno. unfold updateElement, setElements. destruct s as [els sel h i]; cbn in *.
  f_equal. rewrite <- (list_fmap_id els) at 2. apply list_fmap_ext.
  intros k el Hel. destruct (has_id (VStr id) el) eqn:E; [|done].
  destruct Hno. exists el. split; [|done]. by eapply list_elem_of_lookup_2.
Qed.

Lemma duplicateElement_absent gid id s :
  ¬ present (VStr id) (elements s) → duplicateElement gid id s = s.
Proof.
  intros Hno. unfold duplicateElement.
  rewrite find_none_all; [done|]. intros el Hel.
  destruct (has_id (VStr id) el) eqn:E; [|done]. destruct Hno. by exists el.
Qed.

Lemma filter_absent (id : value) (els : list object) :
  ¬ present id els → filter (λ el, has_id id el = false) els = els.
Proof.
  intros Hno. induction els as [|el els IH]; [done|].
  rewrite filter_cons. destruct (decide (has_id id el = false)) as [E|E].
  - f_equal. apply IH. intros (x & Hx & Hid). apply Hno. exists x. split; [by right|done].
  - destruct Hno. exists el. split; [left|]. by destruct (has_id id el).
Qed.

(** ** Concrete runs *)

Example run_add : run [CAdd "e1" SHAPE ∅] startup = Some after_add.
Proof. vm_compute. reflexivity. Qed.

Example run_add_update :
  run [CAdd "e1" SHAPE ∅; CUpdate "e1" {["x" := VNum 5]}] startup =
  Some after_add_update.
Proof. vm_compute. reflexivity. Qed.

Example run_add_undo :
  run [CAdd "e1" SHAPE ∅; CUndo true] startup = Some after_add_undo.
Proof. vm_compute. reflexivity. Qed.

(** The scenarios of the specification, section 8. *)
Example scenario_2 :
  run [CAdd "e1" SHAPE ∅; CAdd "e2" TEXT {["content" := VStr "hi"]}; CUndo true]
    startup =
  Some (mkState [shape_e1] (VStr "e2")
          [[]; [shape_e1];
           [shape_e1; new_element "e2" TEXT {["content" := VStr "hi"]} after_add]] 1).
Proof. vm_compute. reflexivity. Qed.

Example scenario_3 :
  run [CAdd "e1" SHAPE ∅; CUndo true] startup = Some after_add_undo ∧
  elements after_add_undo = [] ∧ historyIndex after_add_undo = 0%Z ∧
  canUndo after_add_undo = false.
Proof. repeat split; vm_compute; reflexivity. Qed.

Example scenario_4 :
  ∃ e2 e3,
    elements <$>
      run [CAdd "e1" SHAPE ∅; CAdd "e2" TEXT ∅; CDuplicate "e3" "e1"] startup =
    Some [shape_e1; e2; e3] ∧
    get e3 "x" = VNum 220 ∧ get e3 "y" = VNum 220 ∧ get e3 "zIndex" = VNum 3.
Proof. eexists _, _. repeat split; vm_compute; reflexivity. Qed.

Example scenario_5 :
  (λ s, (elements s, selectedId s)) <$>
    run [CAdd "e1" SHAPE ∅; CAdd "e2" TEXT ∅; CDelete None] startup =
  Some ([shape_e1], VNull).
Proof. vm_compute. reflexivity. Qed.

Lemma run_no_update_in_sync cs s s' :
  in_sync s → no_update cs = true → run cs s = Some s' → in_sync s'.
Proof.
  revert s. induction cs as [|c cs IH]; intros s Hs; cbn.
  - by intros _ [= <-].
  - intros [Hc Hcs]%andb_true_iff. apply negb_true_iff in Hc.
    destruct (step c s) as [s1|] eqn:E; cbn; [|done].
    apply IH; [|done]. by eapply step_preserves_sync.
Qed.

Lemma startup_in_sync : in_sync startup.
Proof. reflexivity. Qed.

Lemma startup_at_tip : at_tip startup.
Proof. reflexivity. Qed.

(** ** Selection *)

Lemma new_element_id gid type (payload : object) s :
  payload !! "id" = None → new_element gid type payload s !! "id" = Some (VStr gid).
Proof.
  intros H. rewrite new_element_other by done.
  unfold base_element. by rewrite spread_lookup, H, lookup_insert_eq.
Qed.

Lemma has_id_str gid (el : object) :
  el !! "id" = Some (VStr gid) → has_id (VStr gid) el = true.
Proof.
  intros H. unfold has_id. rewrite (get_lookup _ _ _ H).
  by apply bool_decide_eq_true.
Qed.

(** ** Element types along a run *)

Lemma registered_mono T T' el : T ⊆ T' → registered T el → registered T' el.
Proof.
  intros Hsub (i & Hid & Hty). exists i. split; [done|].
  by eapply lookup_weaken.
Qed.

Lemma all_registered_mono T T' s :
  T ⊆ T' → all_registered T s → all_registered T' s.
Proof.
  intros Hsub [He Hh]. split.
  - eapply Forall_impl; [exact He|]. intros el. by apply registered_mono.
  - eapply Forall_impl; [exact Hh|]. intros snap Hs.
    eapply Forall_impl; [exact Hs|]. intros el. by apply registered_mono.
Qed.

Lemma all_registered_commit T s newElements st :
  Forall (Forall (registered T)) (history s) →
  Forall (registered T) newElements →
  Forall (Forall (registered T)) (history (addToHistory s newElements st)).
Proof.
  intros Hh Hn. rewrite addToHistory_history. apply Forall_app. split.
  - unfold slice0. by apply Forall_take.
  - by apply Forall_singleton.
Qed.

Lemma all_registered_index T (h : list (list object)) i snapshot :
  Forall (Forall (registered T)) h → index h i = Some snapshot →
  Forall (registered T) snapshot.
Proof.
  intros Hh. unfold index. destruct (i <? 0)%Z; [done|].
  intros Hi. by eapply Forall_lookup_1 in Hh.
Qed.

Lemma updateElement_fields id updates s k :
  updates !! k = None →
  Forall2 (λ el el' : object, el' !! k = el !! k)
    (elements s) (elements (updateElement id updates s)).
Proof.
  intros Hk. unfold updateElement. cbn [elements setElements].
  apply Forall2_fmap_r, Forall_Forall2_diag, Forall_forall.
  intros el _. unfold compose. cbn beta.
  destruct (has_id (VStr id) el); [|done].
  by rewrite spread_lookup, Hk.
Qed.

Lemma step_registered c s s' T :
  tame c = true → (∀ g, g ∈ gids [c] → T !! g = None) →
  all_registered T s → step c s = Some s' →
  ∃ T', T ⊆ T' ∧ all_registered T' s' ∧
    (∀ g, is_Some (T' !! g) → is_Some (T !! g) ∨ g ∈ gids [c]).
Proof.
  intros Htame Hfresh [He Hh] Hstep.
  destruct c as [gid ty p|id u|id|gid id|b|b|id]; cbn [step tame] in Hstep, Htame.
  - injection Hstep as <-. apply bool_decide_eq_true in Htame.
    assert (T !! gid = None) as Hg by (apply Hfresh; cbn; left).
    set (el := new_element gid ty p s).
    exists (<[gid := el !! "type"]> T).
    assert (T ⊆ <[gid := el !! "type"]> T) as Hsub by by apply insert_subseteq.
    split; [done|]. split.
    + assert (Forall (registered (<[gid := el !! "type"]> T)) (elements s ++ [el]))
        as Hnew.
      { apply Forall_app. split.
        - eapply Forall_impl; [exact He|]. intros x. by apply registered_mono.
        - apply Forall_singleton. exists gid.
          split; [by apply new_element_id|by rewrite lookup_insert_eq]. }
      split; [exact Hnew|].
      unfold addElement. fold el.
      apply all_registered_commit; [|exact Hnew].
      by apply (all_registered_mono T _ s Hsub).
    + intros g [x Hx]. destruct (decide (g = gid)) as [->|Hne].
      * right. cbn. left.
      * left. rewrite lookup_insert_ne in Hx by done. by exists x.
  - injection Hstep as <-. apply andb_true_iff in Htame as [Hid Hty].
    apply bool_decide_eq_true in Hid. apply bool_decide_eq_true in Hty.
    exists T. split; [done|]. split; [|by left]. split; [|exact Hh].
    pose proof (updateElement_fields id u s "id" Hid) as Fid.
    pose proof (updateElement_fields id u s "type" Hty) as Fty.
    apply Forall_lookup. intros n el' Hel'.
    destruct (Forall2_lookup_r _ _ _ _ _ Fid Hel') as (el & Hel & Hi).
    destruct (Forall2_lookup_r _ _ _ _ _ Fty Hel') as (el0 & Hel0 & Ht).
    assert (el0 = el) as -> by congruence.
    destruct (Forall_lookup_1 _ _ _ _ He Hel) as (i & Hii & HT).
    exists i. by rewrite Hi, Ht.
  - injection Hstep as <-. exists T. split; [done|]. split; [|by left].
    destruct (deleteElement_cases id s) as [[_ ->]|[_ (_ & _ & ->)]]; [done|].
    set (newElements := filter _ _).
    assert (Forall (registered T) newElements) as Hnew.
    { apply Forall_forall. intros el [_ Hel]%list_elem_of_filter.
      by eapply Forall_forall in He. }
    destruct (strict_eq _ _); (split; [exact Hnew|]);
      by apply all_registered_commit.
  - injection Hstep as <-.
    destruct (duplicateElement_cases gid id s) as [[_ ->]|[_ (src & Hsrc & ->)]].
    { exists T. split; [done|]. split; [done|by left]. }
    assert (T !! gid = None) as Hg by (apply Hfresh; cbn; left).
    set (el := copy_element gid (length (elements s)) src).
    exists (<[gid := el !! "type"]> T).
    assert (T ⊆ <[gid := el !! "type"]> T) as Hsub by by apply insert_subseteq.
    split; [done|]. split.
    + assert (Forall (registered (<[gid := el !! "type"]> T)) (elements s ++ [el]))
        as Hnew.
      { apply Forall_app. split.
        - eapply Forall_impl; [exact He|]. intros x. by apply registered_mono.
        - apply Forall_singleton. exists gid. split; [|by rewrite lookup_insert_eq].
          unfold el, copy_element. rewrite !lookup_insert_ne by done.
          by rewrite lookup_insert_eq. }
      split; [exact Hnew|].
      apply all_registered_commit; [|exact Hnew].
      by apply (all_registered_mono T _ s Hsub).
    + intros g [x Hx]. destruct (decide (g = gid)) as [->|Hne].
      * right. cbn. left.
      * left. rewrite lookup_insert_ne in Hx by done. by exists x.
  - exists T. split; [done|]. split; [|by left].
    apply handleUndo_cases in Hstep as [[_ ->]|[_ (snapshot & Hi & ->)]]; [done|].
    split; [|exact Hh]. by eapply all_registered_index.
  - exists T. split; [done|]. split; [|by left].
    apply handleRedo_cases in Hstep as [[_ ->]|[_ (snapshot & Hi & ->)]]; [done|].
    split; [|exact Hh]. by eapply all_registered_index.
  - injection Hstep as <-. exists T. split; [done|]. split; [done|by left].
Qed.

Lemma gids_cons c cs : gids (c :: cs) = gids [c] ++ gids cs.
Proof. unfold gids. rewrite !bind_cons. cbn. by rewrite app_nil_r. Qed.

Lemma gids_app cs1 cs2 : gids (cs1 ++ cs2) = gids cs1 ++ gids cs2.
Proof. unfold gids. apply bind_app. Qed.

Lemma run_registered cs s s' T :
  forallb tame cs = true → NoDup (gids cs) →
  (∀ g, g ∈ gids cs → T !! g = None) →
  all_registered T s → run cs s = Some s' →
  ∃ T', T ⊆ T' ∧ all_registered T' s' ∧
    (∀ g, is_Some (T' !! g) → is_Some (T !! g) ∨ g ∈ gids cs).
Proof.
  revert s T. induction cs as [|c cs IH]; intros s T Htame Hnd Hfresh Hreg; cbn [run].
  - intros [= <-]. exists T. split; [done|]. split; [done|by left].
  - destruct (step c s) as [s1|] eqn:Hstep; cbn -[gids]; [|done]. intros Hrun.
    cbn [forallb] in Htame. apply andb_true_iff in Htame as [Hc Hcs].
    rewrite gids_cons in Hnd, Hfresh.
    apply NoDup_app in Hnd as (Hnd1 & Hdisj & Hnd2).
    destruct (step_registered c s s1 T Hc) as (T1 & Hsub1 & Hreg1 & Hdom1);
      [intros g Hg; apply Hfresh, elem_of_app; by left|done|done|].
    destruct (IH s1 T1 Hcs Hnd2) as (T2 & Hsub2 & Hreg2 & Hdom2); [|done|done|].
    { intros g Hg. destruct (T1 !! g) as [x|] eqn:E; [|done].
      destruct (Hdom1 g) as [[y Hy]|Hin]; [by exists x| |].
      - rewrite Hfresh in Hy; [done|]. apply elem_of_app. by right.
      - by destruct (Hdisj g Hin). }
    exists T2. split; [by etrans|]. split; [done|].
    intros g Hg. rewrite gids_cons.
    destruct (Hdom2 g Hg) as [H1|H2].
    + destruct (Hdom1 g H1) as [H0|H0]; [by left|].
      right. apply elem_of_app. by left.
    + right. apply elem_of_app. by right.
Qed.

Lemma startup_registered : all_registered ∅ startup.
Proof.
  rewrite startup_state. split; cbn.
  - constructor.
  - repeat constructor.
Qed.

(** * The claims *)

(** C1 (amended).  In every state reached from startup the cursor
    satisfies 0 <= index < length.  The snapshot under the cursor equals
    the current element array at startup, after every run without
    updateElement, and after every command that commits (add, delete with
    a target, duplicate of a found id) or restores (an enabled, accepted
    undo or redo); every command other than updateElement keeps the
    equality, and every command returns a state. *)
Theorem history_invariant (cs : list command) (s : AppState) :
  run cs startup = Some s →
  cursor_in_range s ∧
  in_sync startup ∧
  (no_update cs = true → in_sync s) ∧
  ∀ c, ∃ s', step c s = Some s' ∧ cursor_in_range s' ∧
    (commits c s || restores c s = true → in_sync s') ∧
    (is_update c = false → in_sync s → in_sync s').
Proof.
  intros Hrun.
  assert (cursor_in_range s) as Hr.
  { apply reachable_cursor. eapply run_reachable; [constructor|done]. }
  split; [done|]. split; [apply startup_in_sync|].
  split; [intros Hn; by eapply run_no_update_in_sync; [apply startup_in_sync|..]|].
  intros c. destruct (step_total c s Hr) as [s' Hstep]. exists s'.
  split; [done|]. split; [by eapply step_cursor|].
  split; [by apply step_establishes_sync|].
  intros Hu Hs. by eapply step_preserves_sync.
Qed.

Lemma history_invariant_witness :
  run [CAdd "e1" SHAPE ∅] startup = Some after_add ∧
  cursor_in_range after_add ∧ in_sync after_add.
Proof.
  pose proof (history_invariant [CAdd "e1" SHAPE ∅] after_add run_add)
    as (Hr & _ & Hs & _).
  split; [exact run_add|]. split; [exact Hr|]. apply Hs. reflexivity.
Defined.

(** C1, as stated, fails: after addElement and one updateElement the
    snapshot under the cursor still holds the element at x = 200 while
    the store holds it at x = 5. *)
Lemma history_invariant_fails_after_update :
  run [CAdd "e1" SHAPE ∅; CUpdate "e1" {["x" := VNum 5]}] startup =
    Some after_add_update ∧
  index (history after_add_update) (historyIndex after_add_update) =
    Some [shape_e1] ∧
  elements after_add_update = [shape_e1_moved] ∧
  shape_e1 !! "x" = Some (VNum 200) ∧
  shape_e1_moved !! "x" = Some (VNum 5) ∧
  ¬ in_sync after_add_update.
Proof.
  split; [exact run_add_update|]. repeat (split; [reflexivity|]).
  unfold in_sync. intros H. vm_compute in H. discriminate H.
Qed.

(** C2: where the code departs from the claim.  deleteElement with an id
    that no element carries leaves the element array as it is but still
    commits a snapshot: at startup the history grows from one snapshot to
    two and the cursor moves from 0 to 1; after add and undo it replaces
    the snapshot that redo would have restored.  updateElement and
    duplicateElement with such an id change nothing. *)
Theorem deleteElement_unknown_id_commits :
  ¬ present (VStr "ghost") (elements startup) ∧
  startup = mkState [] VNull [[]] 0 ∧
  deleteElement (Some "ghost") startup = mkState [] VNull [[]; []] 1 ∧
  ¬ present (VStr "ghost") (elements after_add_undo) ∧
  history after_add_undo = [[]; [shape_e1]] ∧
  deleteElement (Some "ghost") after_add_undo =
    mkState [] (VStr "e1") [[]; []] 1 ∧
  (∀ id updates s, ¬ present (VStr id) (elements s) →
     updateElement id updates s = s) ∧
  (∀ gid id s, ¬ present (VStr id) (elements s) →
     duplicateElement gid id s = s) ∧
  (∀ id s, ¬ present (VStr id) (elements s) →
     elements (deleteElement (Some id) s) = elements s).
Proof.
  split_and!; try reflexivity.
  - intros (el & Hel & _). by apply elem_of_nil in Hel.
  - intros (el & Hel & _). by apply elem_of_nil in Hel.
  - apply updateElement_absent.
  - apply duplicateElement_absent.
  - intros id s Hno.
    destruct (deleteElement_cases (Some id) s) as [[_ ->]|[_ (-> & _)]]; [done|].
    by apply filter_absent.
Qed.

(** C3 (amended).  The element addElement creates gets backgroundColor
    slate-400 exactly when the type is shape and the payload's
    backgroundColor is missing or falsy, and the default text color
    exactly when the type is text and the payload's color is missing or
    falsy; otherwise these two fields are the payload's.  A shape whose
    payload has neither a truthy backgroundColor nor a shapeType gets
    shapeType rectangle; an element that is not a shape gets no shapeType
    but the payload's.  A payload field keeps its value in the created
    element unless it is a falsy backgroundColor of a shape or a falsy
    color of a text; the shapeType of a shape whose payload gives only
    one of backgroundColor and shapeType is left open. *)
Theorem addElement_defaults
    (gid : string) (type : ElementType) (payload : object) (s : AppState) :
  let el := new_element gid type payload s in
  elements (addElement gid type payload s) = elements s ++ [el] ∧
  (type = SHAPE → truthy (get payload "backgroundColor") = false →
     el !! "backgroundColor" = Some slate_400 ∧
     (payload !! "shapeType" = None →
      el !! "shapeType" = Some (ShapeType_value RECTANGLE))) ∧
  (type ≠ SHAPE ∨ truthy (get payload "backgroundColor") = true →
     el !! "backgroundColor" = payload !! "backgroundColor") ∧
  (type ≠ SHAPE → el !! "shapeType" = payload !! "shapeType") ∧
  (type = TEXT → truthy (get payload "color") = false →
     el !! "color" = Some slate_800) ∧
  (type ≠ TEXT ∨ truthy (get payload "color") = true →
     el !! "color" = payload !! "color") ∧
  (∀ k v, payload !! k = Some v →
     ¬ (k = "backgroundColor" ∧ type = SHAPE ∧ truthy v = false) →
     ¬ (k = "color" ∧ type = TEXT ∧ truthy v = false) →
     ¬ (k = "shapeType" ∧ type = SHAPE ∧
        truthy (get payload "backgroundColor") = false) →
     el !! k = Some v).
Proof.
  cbn zeta. split; [reflexivity|].
  assert (∀ k, k ≠ "id" → k ≠ "type" → k ≠ "x" → k ≠ "y" → k ≠ "width" →
    k ≠ "height" → k ≠ "rotation" → k ≠ "zIndex" → k ≠ "opacity" →
    base_element gid type (length (elements s)) payload !! k = payload !! k)
    as Hbase.
  { intros k **. unfold base_element. rewrite spread_lookup.
    destruct (payload !! k); [done|]. by rewrite !lookup_insert_ne. }
  unfold new_element. split_and!.
  - intros -> Hbg. rewrite !text_defaults_other by done.
    rewrite shape_defaults_applied by done. split.
    + rewrite lookup_insert_ne by done. by rewrite lookup_insert_eq.
    + intros _. by rewrite lookup_insert_eq.
  - intros Hbg. rewrite text_defaults_other by done.
    rewrite shape_defaults_skipped by done. by apply Hbase.
  - intros Hty. rewrite text_defaults_other by done.
    rewrite shape_defaults_skipped by (by left). by apply Hbase.
  - intros -> Hc. rewrite text_defaults_applied by done.
    by rewrite lookup_insert_eq.
  - intros Hc. rewrite text_defaults_skipped by done.
    rewrite shape_defaults_other by done. by apply Hbase.
  - intros k v Hk Hbg Hcol Hst.
    pose proof (base_element_payload gid type (length (elements s)) _ _ _ Hk)
      as Hb.
    unfold text_defaults, shape_defaults.
    destruct type;
      repeat first [ rewrite bool_decide_eq_true_2 by done
                   | rewrite bool_decide_eq_false_2 by done ];
      cbn [andb]; [| |done].
    + destruct (truthy (get payload "color")) eqn:Ec; cbn [negb]; [done|].
      destruct (decide (k = "color")) as [->|Hne].
      * destruct Hcol. rewrite <- (get_lookup _ _ _ Hk). done.
      * by rewrite lookup_insert_ne.
    + destruct (truthy (get payload "backgroundColor")) eqn:Eb; cbn [negb]; [done|].
      destruct (decide (k = "shapeType")) as [->|Hne1]; [by destruct Hst|].
      destruct (decide (k = "backgroundColor")) as [->|Hne2].
      * destruct Hbg. rewrite <- (get_lookup _ _ _ Hk). done.
      * by rewrite !lookup_insert_ne.
Qed.

(** C3, as stated, fails: a shape payload that gives shapeType but no
    backgroundColor has its shapeType replaced by rectangle, and a text
    payload whose color is the empty string has it replaced by the
    default color. *)
Lemma addElement_overrides_payload :
  ({["shapeType" := VStr "circle"]} : object) !! "shapeType" = Some (VStr "circle") ∧
  new_element "e1" SHAPE {["shapeType" := VStr "circle"]} startup !! "shapeType" =
    Some (VStr "rectangle") ∧
  ({["color" := VStr ""]} : object) !! "color" = Some (VStr "") ∧
  new_element "e2" TEXT {["color" := VStr ""]} startup !! "color" =
    Some (VStr "#1e293b").
Proof. repeat split; vm_compute; reflexivity. Qed.

(** C4 (amended).  Undo and redo leave the selection as it is, also when
    the restored collection does not hold the selected id; the element
    resolved from such a selection is null.  The selection names an
    element of the store after addElement (with a payload that has no id
    field) and after duplicateElement of a present id; deleteElement
    keeps a valid selection valid, and clears the selection when its
    target is the selected id. *)
Theorem selection_law (s : AppState) :
  (∀ confirm s', handleUndo confirm s = Some s' ∨ handleRedo confirm s = Some s' →
     selectedId s' = selectedId s) ∧
  (¬ present (selectedId s) (elements s) → selectedElement s = None) ∧
  (∀ gid type (payload : object), payload !! "id" = None →
     selection_valid (addElement gid type payload s)) ∧
  (∀ gid id, present (VStr id) (elements s) →
     selection_valid (duplicateElement gid id s)) ∧
  (∀ id, selection_valid s → selection_valid (deleteElement id s)) ∧
  (∀ id, truthy (target_of id s) = true → target_of id s = selectedId s →
     selectedId (deleteElement id s) = VNull).
Proof.
  split_and!.
  - intros confirm s' [H|H];
      [by eapply handleUndo_selectedId|by eapply handleRedo_selectedId].
  - intros Hno. unfold selectedElement. apply find_none_all.
    intros el Hel. destruct (has_id (selectedId s) el) eqn:E; [|done].
    destruct Hno. by exists el.
  - intros gid type payload Hid. right. unfold selectedElement.
    pose proof (new_element_id gid type payload s Hid) as Hnew.
    unfold addElement. unfold_setters.
    rewrite (get_lookup _ _ _ Hnew).
    eapply find_some_has; [|by apply has_id_str].
    apply elem_of_app. right. left.
  - intros gid id (el & Hel & Hid). right.
    destruct (duplicateElement_cases gid id s) as [[Hn _]|[_ (src & Hsrc & ->)]].
    + cbn [commits] in Hn. apply bool_decide_eq_false in Hn.
      destruct Hn. by eapply find_some_has.
    + unfold selectedElement. unfold_setters.
      eapply find_some_has; [apply elem_of_app; right; left|].
      apply has_id_str. unfold copy_element.
      rewrite !lookup_insert_ne by done. by rewrite lookup_insert_eq.
  - intros id Hv.
    destruct (deleteElement_cases id s) as [[_ ->]|[Ht (_ & _ & ->)]]; [done|].
    cbn [commits] in Ht.
    destruct (strict_eq (target_of id s) (selectedId s)) eqn:Eq; [by left|].
    destruct Hv as [Hnull|[el Hel]]; [by left|]. right.
    apply find_some_elem in Hel as [Hel Hid].
    unfold selectedElement. unfold_setters.
    eapply find_some_has; [|exact Hid].
    apply list_elem_of_filter. split; [|done].
    unfold has_id in *. apply strict_eq_true in Hid. rewrite Hid.
    by rewrite strict_eq_sym.
  - intros id Ht Heq.
    destruct (deleteElement_cases id s) as [[Hn _]|[_ (_ & _ & ->)]];
      [cbn [commits] in Hn; congruence|].
    rewrite <- Heq, strict_eq_refl_truthy by done. reflexivity.
Qed.

(** C4, as stated, fails: after addElement the new element e1 is
    selected; an accepted undo restores the empty collection and the
    selection still is e1, which no element of the store carries. *)
Lemma selection_dangles_after_undo :
  run [CAdd "e1" SHAPE ∅; CUndo true] startup = Some after_add_undo ∧
  elements after_add_undo = [] ∧
  selectedId after_add_undo = VStr "e1" ∧
  selectedElement after_add_undo = None ∧
  ¬ selection_valid after_add_undo.
Proof.
  split; [exact run_add_undo|]. repeat (split; [reflexivity|]).
  intros [H|[el H]]; discriminate H.
Qed.

(** C5 (amended).  In every state reached from startup in which undo is
    enabled, an accepted undo followed by an accepted redo both return
    and leave the history and the cursor as they were; the store then
    holds the snapshot that was under the cursor before the undo.  That
    is the collection held before the undo whenever that collection
    was the snapshot under the cursor (no updateElement since the last
    commit or restore), and then the whole state is back. *)
Theorem undo_redo_restores (cs : list command) (s : AppState) :
  run cs startup = Some s → canUndo s = true →
  ∃ s1 s2, handleUndo true s = Some s1 ∧ handleRedo true s1 = Some s2 ∧
    history s2 = history s ∧ historyIndex s2 = historyIndex s ∧
    selectedId s2 = selectedId s ∧
    index (history s) (historyIndex s) = Some (elements s2) ∧
    (in_sync s → elements s2 = elements s ∧ s2 = s).
Proof.
  intros Hrun Hu.
  assert (cursor_in_range s) as [H0 H1].
  { apply reachable_cursor. eapply run_reachable; [constructor|done]. }
  unfold canUndo in Hu. apply Z.ltb_lt in Hu.
  destruct (index_in_range (history s) (historyIndex s - 1)) as [snap1 E1]; [lia|].
  destruct (index_in_range (history s) (historyIndex s)) as [snap2 E2]; [lia|].
  eexists _, _. split.
  { unfold handleUndo. rewrite (proj2 (Z.ltb_lt _ _) Hu), andb_false_r, E1. done. }
  split.
  { unfold handleRedo. cbn [history historyIndex setElements setHistoryIndex].
    rewrite (proj2 (Z.ltb_lt _ _)) by lia. rewrite andb_false_r.
    replace (historyIndex s - 1 + 1)%Z with (historyIndex s) by lia.
    rewrite E2. done. }
  cbn. repeat (split; [done || lia|]).
  unfold in_sync. rewrite E2. intros [= ->]. split; [done|].
  destruct s; cbn in *. f_equal; lia.
Qed.

Lemma undo_redo_restores_witness :
  run [CAdd "e1" SHAPE ∅] startup = Some after_add ∧ canUndo after_add = true ∧
  ∃ s1 s2, handleUndo true after_add = Some s1 ∧ handleRedo true s1 = Some s2 ∧
    elements s2 = elements after_add.
Proof.
  split; [exact run_add|]. split; [reflexivity|].
  destruct (undo_redo_restores [CAdd "e1" SHAPE ∅] after_add run_add eq_refl)
    as (s1 & s2 & Hu & Hr & _ & _ & _ & _ & Hs).
  exists s1, s2. split; [exact Hu|]. split; [exact Hr|].
  apply Hs. reflexivity.
Defined.

(** C5, as stated, fails after a transient updateElement: undo then redo
    brings back the committed element at x = 200, not the collection
    held before the undo, where it was at x = 5. *)
Lemma undo_redo_loses_update :
  run [CAdd "e1" SHAPE ∅; CUpdate "e1" {["x" := VNum 5]}] startup =
    Some after_add_update ∧
  canUndo after_add_update = true ∧
  handleUndo true after_add_update = Some after_add_undo ∧
  handleRedo true after_add_undo = Some after_add ∧
  elements after_add_update = [shape_e1_moved] ∧
  elements after_add = [shape_e1] ∧
  elements after_add ≠ elements after_add_update.
Proof.
  split; [exact run_add_update|]. repeat (split; [reflexivity|]).
  intros H. vm_compute in H. discriminate H.
Qed.

(** C6 (amended).  After every run from startup the history length is at
    most N + 1, where N counts the commands of the run that commit a
    snapshot (add, delete with a target, duplicate of a found id) and 1 is
    the seeded empty snapshot; it is exactly N + 1 when the run holds no
    undo and no redo.  Undo and redo commit nothing: they leave the
    history list as it is. *)
Theorem history_length (cs : list command) (s : AppState) :
  run cs startup = Some s →
  length (history s) ≤ commit_count cs startup + 1 ∧
  (no_time_travel cs = true → length (history s) = commit_count cs startup + 1) ∧
  (∀ confirm s', handleUndo confirm s = Some s' ∨ handleRedo confirm s = Some s' →
     history s' = history s).
Proof.
  intros Hrun.
  destruct (run_history_length cs startup s startup_cursor Hrun) as [Hle Heq].
  change (length (history startup)) with 1 in *.
  split; [lia|]. split.
  - intros Hn. rewrite (Heq Hn startup_at_tip). lia.
  - intros confirm s' [H|H];
      [by eapply handleUndo_history|by eapply handleRedo_history].
Qed.

Lemma history_length_witness :
  run [CAdd "e1" SHAPE ∅] startup = Some after_add ∧
  length (history after_add) = 1 + 1.
Proof.
  split; [exact run_add|].
  exact (proj1 (proj2 (history_length [CAdd "e1" SHAPE ∅] after_add run_add))
           eq_refl).
Defined.

(** C6, as stated, fails: add then undo are two of the operations the
    claim counts, and the history holds two snapshots afterwards, not
    three. *)
Lemma history_length_undo_counterexample :
  run [CAdd "e1" SHAPE ∅; CUndo true] startup = Some after_add_undo ∧
  length [CAdd "e1" SHAPE ∅; CUndo true] = 2 ∧
  length (history after_add_undo) = 2 ∧
  length (history after_add_undo) ≠ 2 + 1.
Proof.
  split; [exact run_add_undo|]. repeat (split; [reflexivity|]).
  cbn. lia.
Qed.

(** C7 (amended).  For every id present in the store, duplicateElement
    appends one element, a copy of the first element with that id, equal
    to it in every field except: id, the freshly generated one; x and y,
    the source's plus 20 as binary64 adds them, which is the integer
    plus 20 when the source's value and the sum are safe integers; and
    zIndex, the number of elements before the call plus one, which is
    the new size of the store. *)
Theorem duplicateElement_copy (gid id : string) (s : AppState) :
  present (VStr id) (elements s) →
  ∃ src dup,
    List.find (has_id (VStr id)) (elements s) = Some src ∧
    elements (duplicateElement gid id s) = elements s ++ [dup] ∧
    dup !! "id" = Some (VStr gid) ∧
    dup !! "x" = Some (js_plus (get src "x") 20) ∧
    dup !! "y" = Some (js_plus (get src "y") 20) ∧
    (∀ a, get src "x" = VNum a → safe_integer a → safe_integer (a + 20) →
          dup !! "x" = Some (VNum (a + 20))) ∧
    (∀ b, get src "y" = VNum b → safe_integer b → safe_integer (b + 20) →
          dup !! "y" = Some (VNum (b + 20))) ∧
    dup !! "zIndex" = Some (VNum (Z.of_nat (length (elements s)) + 1)) ∧
    dup !! "zIndex" =
      Some (VNum (Z.of_nat (length (elements (duplicateElement gid id s))))) ∧
    (∀ k, k ≠ "id" → k ≠ "x" → k ≠ "y" → k ≠ "zIndex" → dup !! k = src !! k).
Proof.
  intros (el & Hel & Hid).
  destruct (find_some_has _ _ _ Hel Hid) as [src Hsrc].
  exists src, (copy_element gid (length (elements s)) src).
  split; [done|].
  assert (elements (duplicateElement gid id s) =
          elements s ++ [copy_element gid (length (elements s)) src]) as Hels.
  { unfold duplicateElement. by rewrite Hsrc. }
  split; [done|]. unfold copy_element. split_and!.
  - rewrite !lookup_insert_ne by done. by rewrite lookup_insert_eq.
  - rewrite !lookup_insert_ne by done. by rewrite lookup_insert_eq.
  - rewrite !lookup_insert_ne by done. by rewrite lookup_insert_eq.
  - intros a Ha Hs1 Hs2. rewrite !lookup_insert_ne by done.
    by rewrite lookup_insert_eq, Ha, js_plus_safe by (done || apply safe_integer_20).
  - intros b Hb Hs1 Hs2. rewrite !lookup_insert_ne by done.
    by rewrite lookup_insert_eq, Hb, js_plus_safe by (done || apply safe_integer_20).
  - by rewrite lookup_insert_eq.
  - rewrite lookup_insert_eq, Hels, length_app. cbn. do 2 f_equal. lia.
  - intros k ????. by rewrite !lookup_insert_ne by done.
Qed.

Lemma duplicateElement_copy_witness :
  present (VStr "e1") (elements after_add) ∧
  ∃ dup, elements (duplicateElement "e2" "e1" after_add) = [shape_e1; dup] ∧
    dup !! "x" = Some (VNum 220) ∧ dup !! "zIndex" = Some (VNum 2).
Proof.
  assert (present (VStr "e1") (elements after_add)) as Hp.
  { exists shape_e1. split; [left|reflexivity]. }
  split; [exact Hp|].
  destruct (duplicateElement_copy "e2" "e1" after_add Hp)
    as (src & dup & Hsrc & Hels & _ & _ & _ & Hx & _ & Hz & _).
  exists dup. split; [exact Hels|].
  injection Hsrc as <-.
  split; [apply (Hx 200%Z); [reflexivity|split; reflexivity..]|exact Hz].
Defined.

(** C7, as stated, fails on the zIndex: after three adds and the deletion
    of the first two elements the store holds one element of zIndex 3;
    its duplicate gets zIndex 2, which is not the maximum of the new
    store. *)
Lemma duplicateElement_zIndex_not_max :
  elements <$>
    run [CAdd "e1" SHAPE ∅; CAdd "e2" TEXT ∅; CAdd "e3" IMAGE ∅;
         CDelete (Some "e1"); CDelete (Some "e2")] startup = Some [image_e3] ∧
  elements <$>
    run [CAdd "e1" SHAPE ∅; CAdd "e2" TEXT ∅; CAdd "e3" IMAGE ∅;
         CDelete (Some "e1"); CDelete (Some "e2"); CDuplicate "e4" "e3"] startup =
    Some [image_e3; image_e4] ∧
  get image_e4 "zIndex" = VNum 2 ∧
  max_zIndex [image_e3; image_e4] = 3%Z.
Proof. repeat split; vm_compute; reflexivity. Qed.

(** C8 (amended).  Take any run from startup in which no updateElement
    call carries an id or a type field, no addElement payload carries an
    id field and the generated ids are pairwise distinct.  Then an
    element keeps the type it was created with: two elements with the
    same id, one in the store at some point of the run and one in the
    store at a later point, have the same type field.  And in any state
    an updateElement whose fields hold no type leaves the type of every
    element as it is. *)
Theorem type_never_changes (cs1 cs2 : list command) (s1 s2 : AppState) :
  disciplined (cs1 ++ cs2) = true →
  run cs1 startup = Some s1 → run cs2 s1 = Some s2 →
  (∀ (el1 el2 : object) i, el1 ∈ elements s1 → el2 ∈ elements s2 →
     el1 !! "id" = Some (VStr i) → el2 !! "id" = Some (VStr i) →
     el2 !! "type" = el1 !! "type") ∧
  (∀ id (updates : object), updates !! "type" = None →
     Forall2 (λ el el' : object, el' !! "type" = el !! "type")
       (elements s2) (elements (updateElement id updates s2))).
Proof.
  intros Hd Hrun1 Hrun2. split; [|intros id u; apply updateElement_fields].
  unfold disciplined in Hd. apply andb_true_iff in Hd as [Htame Hnd].
  apply bool_decide_eq_true in Hnd. rewrite gids_app in Hnd.
  apply NoDup_app in Hnd as (Hnd1 & Hdisj & Hnd2).
  rewrite forallb_app in Htame. apply andb_true_iff in Htame as [Ht1 Ht2].
  destruct (run_registered cs1 startup s1 ∅ Ht1 Hnd1)
    as (T1 & _ & Hreg1 & Hdom1); [done|apply startup_registered|done|].
  destruct (run_registered cs2 s1 s2 T1 Ht2 Hnd2)
    as (T2 & Hsub & Hreg2 & _); [|done|done|].
  { intros g Hg. destruct (T1 !! g) as [x|] eqn:E; [|done].
    destruct (Hdom1 g) as [[y Hy]|Hin]; [by exists x|done|].
    by destruct (Hdisj g Hin). }
  intros el1 el2 i Hel1 Hel2 Hid1 Hid2.
  destruct Hreg1 as [He1 _]. destruct Hreg2 as [He2 _].
  eapply Forall_forall in He1 as (i1 & Hi1 & HT1); [|exact Hel1].
  eapply Forall_forall in He2 as (i2 & Hi2 & HT2); [|exact Hel2].
  assert (i1 = i) as -> by congruence. assert (i2 = i) as -> by congruence.
  eapply lookup_weaken in HT1; [|exact Hsub]. congruence.
Qed.

Lemma type_never_changes_witness :
  disciplined ([CAdd "e1" TEXT ∅] ++ [CUpdate "e1" {["x" := VNum 5]}]) = true ∧
  run [CAdd "e1" TEXT ∅] startup = Some after_add_text ∧
  run [CUpdate "e1" {["x" := VNum 5]}] after_add_text =
    Some (mkState [<["x" := VNum 5]> text_e1] (VStr "e1") [[]; [text_e1]] 1) ∧
  (<["x" := VNum 5]> text_e1 : object) !! "type" = text_e1 !! "type".
Proof.
  assert (disciplined ([CAdd "e1" TEXT ∅] ++ [CUpdate "e1" {["x" := VNum 5]}]) = true)
    as Hd by (vm_compute; reflexivity).
  assert (run [CAdd "e1" TEXT ∅] startup = Some after_add_text)
    as H1 by (vm_compute; reflexivity).
  assert (run [CUpdate "e1" {["x" := VNum 5]}] after_add_text =
    Some (mkState [<["x" := VNum 5]> text_e1] (VStr "e1") [[]; [text_e1]] 1))
    as H2 by (vm_compute; reflexivity).
  split; [exact Hd|]. split; [exact H1|]. split; [exact H2|].
  apply (proj1 (type_never_changes _ _ _ _ Hd H1 H2) text_e1
           (<["x" := VNum 5]> text_e1) "e1").
  - left.
  - left.
  - reflexivity.
  - reflexivity.
Defined.

(** C8, as stated, fails: updateElement merges whatever fields it is
    given, the type among them; a text element becomes a shape. *)
Lemma updateElement_changes_type :
  run [CAdd "e1" TEXT ∅] startup = Some after_add_text ∧
  text_e1 !! "type" = Some (VStr "text") ∧
  elements (updateElement "e1" {["type" := VStr "shape"]} after_add_text) =
    [<["type" := VStr "shape"]> text_e1] ∧
  (<["type" := VStr "shape"]> text_e1 : object) !! "id" = text_e1 !! "id" ∧
  (<["type" := VStr "shape"]> text_e1 : object) !! "type" = Some (VStr "shape").
Proof. repeat split; vm_compute; reflexivity. Qed.

(** C9.  For every type and payload, addElement appends an element
    whose x is the payload's x when the payload has one and 200
    otherwise, and likewise for y. *)
Theorem addElement_default_position
    (gid : string) (type : ElementType) (payload : object) (s : AppState) :
  let el := new_element gid type payload s in
  elements (addElement gid type payload s) = elements s ++ [el] ∧
  el !! "x" = Some (match payload !! "x" with Some v => v | None => VNum 200 end) ∧
  el !! "y" = Some (match payload !! "y" with Some v => v | None => VNum 200 end).
Proof.
  cbn zeta. split; [reflexivity|].
  rewrite !new_element_other by done. unfold base_element.
  rewrite !spread_lookup.
  split; [destruct (payload !! "x")|destruct (payload !! "y")]; reflexivity.
Qed.

(** C10.  deleteElement() without an argument while the selection is
    null changes nothing: elements, history, cursor and selection are
    the ones before. *)
Theorem deleteElement_no_selection (s : AppState) :
  selectedId s = VNull → deleteElement None s = s.
Proof. intros H. unfold deleteElement. by rewrite H. Qed.

Lemma deleteElement_no_selection_witness :
  selectedId startup = VNull ∧ deleteElement None startup = startup.
Proof.
  split; [reflexivity|]. apply deleteElement_no_selection. reflexivity.
Defined.

(** * Further properties of the code *)

(** ** History *)

Lemma run_cursor cs s : run cs startup = Some s → cursor_in_range s.
Proof.
  intros Hrun. apply reachable_cursor.
  eapply run_reachable; [constructor|done].
Qed.

Lemma step_commit_history c s s' :
  cursor_in_range s → step c s = Some s' → commits c s = true →
  history s' = take (Z.to_nat (historyIndex s + 1)) (history s) ++ [elements s'] ∧
  historyIndex s' = (historyIndex s + 1)%Z.
Proof.
  intros Hr Hstep Hc.
  assert (∀ newElements st, elements st = newElements →
    history (addToHistory s newElements st) =
      take (Z.to_nat (historyIndex s + 1)) (history s) ++
        [elements (addToHistory s newElements st)] ∧
    historyIndex (addToHistory s newElements st) = (historyIndex s + 1)%Z) as Hadd.
  { intros newElements st <-. destruct Hr as [H0 H1].
    rewrite addToHistory_index, addToHistory_history, addToHistory_elements.
    rewrite slice0_length by lia. by rewrite slice0_nonneg by lia. }
  destruct c as [gid ty p|id u|id|gid id|b|b|id];
    cbn [step commits] in Hstep, Hc; try done; injection Hstep as <-.
  - by apply Hadd.
  - destruct (deleteElement_cases id s) as [[Hn _]|[_ (_ & _ & ->)]];
      [cbn [commits restores] in Hn; congruence|].
    destruct (strict_eq _ _); by apply Hadd.
  - destruct (duplicateElement_cases gid id s) as [[Hn _]|[_ (src & _ & ->)]];
      [cbn [commits restores] in Hn; congruence|]. by apply Hadd.
Qed.

(** X1.  In every state reached from startup a declined confirmation
    leaves the whole state as it is, for undo and for redo: whenever
    either is enabled the history holds more than one snapshot, so the
    confirmation is asked. *)
Theorem declined_confirmation_changes_nothing (cs : list command) (s : AppState) :
  run cs startup = Some s →
  handleUndo false s = Some s ∧ handleRedo false s = Some s.
Proof.
  intros [H0 H1]%run_cursor. unfold handleUndo, handleRedo. split.
  - destruct (Z.ltb_spec 0 (historyIndex s)); [|done].
    by rewrite (proj2 (Nat.ltb_lt 1 (length (history s)))) by lia.
  - destruct (Z.ltb_spec (historyIndex s) (Z.of_nat (length (history s)) - 1));
      [|done].
    by rewrite (proj2 (Nat.ltb_lt 1 (length (history s)))) by lia.
Qed.

Lemma declined_confirmation_changes_nothing_witness :
  run [CAdd "e1" SHAPE ∅] startup = Some after_add ∧
  handleUndo false after_add = Some after_add.
Proof.
  split; [exact run_add|].
  exact (proj1 (declined_confirmation_changes_nothing _ _ run_add)).
Defined.

(** X2.  In every state reached from startup in which redo is enabled,
    an accepted redo followed by an accepted undo both return and leave
    history, cursor and selection as they were; when the store held the
    snapshot under the cursor, the whole state is back. *)
Theorem redo_undo_restores (cs : list command) (s : AppState) :
  run cs startup = Some s → canRedo s = true →
  ∃ s1 s2, handleRedo true s = Some s1 ∧ handleUndo true s1 = Some s2 ∧
    historyIndex s1 = (historyIndex s + 1)%Z ∧
    history s2 = history s ∧ historyIndex s2 = historyIndex s ∧
    selectedId s2 = selectedId s ∧
    index (history s) (historyIndex s) = Some (elements s2) ∧
    (in_sync s → s2 = s).
Proof.
  intros [H0 H1]%run_cursor Hr. unfold canRedo in Hr. apply Z.ltb_lt in Hr.
  destruct (index_in_range (history s) (historyIndex s + 1)) as [snap1 E1]; [lia|].
  destruct (index_in_range (history s) (historyIndex s)) as [snap2 E2]; [lia|].
  eexists _, _. split.
  { unfold handleRedo. rewrite (proj2 (Z.ltb_lt _ _) Hr), andb_false_r, E1. done. }
  split.
  { unfold handleUndo. cbn [history historyIndex setElements setHistoryIndex].
    rewrite (proj2 (Z.ltb_lt _ _)) by lia. rewrite andb_false_r.
    replace (historyIndex s + 1 - 1)%Z with (historyIndex s) by lia.
    rewrite E2. done. }
  cbn. repeat (split; [done || lia|]).
  unfold in_sync. rewrite E2. intros [= ->].
  destruct s; cbn in *. f_equal; lia.
Qed.

Lemma redo_undo_restores_witness :
  run [CAdd "e1" SHAPE ∅; CUndo true] startup = Some after_add_undo ∧
  canRedo after_add_undo = true ∧
  ∃ s1 s2, handleRedo true after_add_undo = Some s1 ∧
    handleUndo true s1 = Some s2 ∧ s2 = after_add_undo.
Proof.
  split; [exact run_add_undo|]. split; [reflexivity|].
  destruct (redo_undo_restores _ _ run_add_undo eq_refl)
    as (s1 & s2 & Hr & Hu & _ & _ & _ & _ & _ & Hs).
  exists s1, s2. split; [exact Hr|]. split; [exact Hu|].
  apply Hs. reflexivity.
Defined.

(** X3.  Undo reverts a commit.  In a state reached from startup whose
    store is the snapshot under the cursor, after any command that
    commits (add, delete with a target, duplicate of a found id) an
    accepted undo brings back the element array and the cursor of
    before, and an accepted redo then brings back the state the command
    had produced. *)
Theorem undo_reverts_commit (cs : list command) (s : AppState)
    (c : command) (s' : AppState) :
  run cs startup = Some s → in_sync s → commits c s = true →
  step c s = Some s' →
  ∃ s'', handleUndo true s' = Some s'' ∧
    elements s'' = elements s ∧ historyIndex s'' = historyIndex s ∧
    handleRedo true s'' = Some s'.
Proof.
  intros Hr Hs Hc Hstep. apply run_cursor in Hr.
  destruct (step_commit_history _ _ _ Hr Hstep Hc) as [Hh Hi].
  destruct Hr as [H0 H1]. unfold in_sync, index in Hs.
  destruct (Z.ltb_spec (historyIndex s) 0) as [|_]; [lia|].
  assert (length (take (Z.to_nat (historyIndex s + 1)) (history s)) =
          Z.to_nat (historyIndex s + 1)) as Hlen by (rewrite length_take; lia).
  assert (index (history s') (historyIndex s) = Some (elements s)) as Hprev.
  { unfold index. destruct (Z.ltb_spec (historyIndex s) 0) as [|_]; [lia|].
    rewrite Hh, lookup_app_l by lia. rewrite lookup_take_lt by lia. done. }
  assert (index (history s') (historyIndex s + 1) = Some (elements s')) as Hcur.
  { unfold index. destruct (Z.ltb_spec (historyIndex s + 1) 0) as [|_]; [lia|].
    rewrite Hh at 1. rewrite lookup_app_r by lia.
    rewrite Hlen, Nat.sub_diag. done. }
  assert (Z.of_nat (length (history s')) = historyIndex s + 2)%Z as Hl.
  { rewrite Hh, length_app, Hlen. cbn. lia. }
  eexists. split.
  { unfold handleUndo. rewrite Hi.
    rewrite (proj2 (Z.ltb_lt _ _)) by lia. rewrite andb_false_r.
    replace (historyIndex s + 1 - 1)%Z with (historyIndex s) by lia.
    rewrite Hprev. done. }
  cbn. split; [done|]. split; [done|].
  unfold handleRedo. cbn [history historyIndex setElements setHistoryIndex].
  rewrite (proj2 (Z.ltb_lt _ _)) by lia. rewrite andb_false_r, Hcur. cbn.
  destruct s'; cbn in *. by rewrite Hi.
Qed.

Lemma undo_reverts_commit_witness :
  run [] startup = Some startup ∧ in_sync startup ∧
  commits (CAdd "e1" SHAPE ∅) startup = true ∧
  step (CAdd "e1" SHAPE ∅) startup = Some after_add ∧
  ∃ s'', handleUndo true after_add = Some s'' ∧
    elements s'' = elements startup ∧ historyIndex s'' = historyIndex startup ∧
    handleRedo true s'' = Some after_add.
Proof.
  assert (step (CAdd "e1" SHAPE ∅) startup = Some after_add) as Hstep
    by (vm_compute; reflexivity).
  split; [reflexivity|]. split; [reflexivity|]. split; [reflexivity|].
  split; [exact Hstep|].
  exact (undo_reverts_commit [] startup (CAdd "e1" SHAPE ∅) after_add
           eq_refl eq_refl eq_refl Hstep).
Defined.

(** X4.  A commit discards the redo tail.  After any command that
    commits, the history is the snapshots up to the old cursor followed
    by the new element array, the cursor is on that last snapshot, undo
    is enabled and redo is disabled: redo changes nothing, whatever was
    undone before. *)
Theorem commit_discards_redo_tail (cs : list command) (s : AppState)
    (c : command) (s' : AppState) :
  run cs startup = Some s → commits c s = true → step c s = Some s' →
  history s' = take (Z.to_nat (historyIndex s + 1)) (history s) ++ [elements s'] ∧
  historyIndex s' = (historyIndex s + 1)%Z ∧
  canUndo s' = true ∧ canRedo s' = false ∧
  ∀ confirm, handleRedo confirm s' = Some s'.
Proof.
  intros Hr Hc Hstep. apply run_cursor in Hr.
  destruct (step_commit_history _ _ _ Hr Hstep Hc) as [Hh Hi].
  destruct (step_commit _ _ _ Hr Hstep Hc) as [Hl Htip].
  destruct Hr as [H0 H1]. unfold at_tip in Htip.
  split; [done|]. split; [done|].
  assert (canRedo s' = false) as Hno.
  { unfold canRedo. apply Z.ltb_ge. lia. }
  split; [unfold canUndo; apply Z.ltb_lt; lia|]. split; [done|].
  intros confirm. unfold handleRedo. unfold canRedo in Hno. by rewrite Hno.
Qed.

Lemma commit_discards_redo_tail_witness :
  run [CAdd "e1" SHAPE ∅; CUndo true] startup = Some after_add_undo ∧
  canRedo after_add_undo = true ∧
  commits (CDelete (Some "ghost")) after_add_undo = true ∧
  canRedo (deleteElement (Some "ghost") after_add_undo) = false.
Proof.
  split; [exact run_add_undo|]. split; [reflexivity|]. split; [reflexivity|].
  exact (proj1 (proj2 (proj2 (proj2
    (commit_discards_redo_tail _ after_add_undo (CDelete (Some "ghost")) _
       run_add_undo eq_refl eq_refl))))).
Defined.

(** X5.  No command alters or drops a snapshot at or before the cursor:
    in every state reached from startup, after any command the history
    reads the same at every index from 0 to the old cursor. *)
Theorem committed_snapshots_are_kept (cs : list command) (s : AppState)
    (c : command) (s' : AppState) (i : Z) :
  run cs startup = Some s → step c s = Some s' →
  (0 ≤ i ≤ historyIndex s)%Z →
  index (history s') i = index (history s) i.
Proof.
  intros Hr Hstep Hi. apply run_cursor in Hr.
  destruct (commits c s) eqn:Hc.
  - destruct (step_commit_history _ _ _ Hr Hstep Hc) as [Hh _].
    destruct Hr as [H0 H1]. unfold index.
    destruct (Z.ltb_spec i 0) as [|_]; [lia|].
    rewrite Hh, lookup_app_l by (rewrite length_take; lia).
    by rewrite lookup_take_lt by lia.
  - destruct (step_no_commit _ _ _ Hstep Hc) as [-> _]. done.
Qed.

Lemma committed_snapshots_are_kept_witness :
  run [CAdd "e1" SHAPE ∅] startup = Some after_add ∧
  index (history (deleteElement (Some "e1") after_add)) 1 = Some [shape_e1].
Proof.
  split; [exact run_add|].
  rewrite (committed_snapshots_are_kept _ after_add (CDelete (Some "e1")) _ 1
             run_add eq_refl); [reflexivity|].
  cbn. lia.
Defined.

(** ** Element management *)

Lemma has_id_spread v (el updates : object) :
  updates !! "id" = None → has_id v (spread el updates) = has_id v el.
Proof. intros H. unfold has_id, get. by rewrite spread_lookup, H. Qed.

(** X6.  updateElement touches nothing but the element array, keeps its
    length and order, leaves every element without the given id as it
    is, and in every element with that id sets exactly the given fields:
    a field of the result is the update's when the update has it and
    the element's own otherwise. *)
Theorem updateElement_merges (id : string) (updates : object) (s : AppState) :
  let s' := updateElement id updates s in
  history s' = history s ∧ historyIndex s' = historyIndex s ∧
  selectedId s' = selectedId s ∧
  length (elements s') = length (elements s) ∧
  ∀ n (el : object), elements s !! n = Some el →
    ∃ el' : object, elements s' !! n = Some el' ∧
      (has_id (VStr id) el = false → el' = el) ∧
      (has_id (VStr id) el = true →
       ∀ k, el' !! k = match updates !! k with Some v => Some v | None => el !! k end).
Proof.
  cbn zeta. split_and!; try reflexivity.
  - unfold updateElement. cbn [elements setElements]. by rewrite length_fmap.
  - intros n el Hel. unfold updateElement. cbn [elements setElements].
    rewrite list_lookup_fmap, Hel. cbn.
    eexists. split; [done|]. destruct (has_id (VStr id) el); split; try done.
    intros _ k. apply spread_lookup.
Qed.

(** X7.  updateElement is idempotent: applying the same update to the
    same id a second time changes nothing, also when the update carries
    an id field. *)
Theorem updateElement_idempotent (id : string) (updates : object) (s : AppState) :
  updateElement id updates (updateElement id updates s) = updateElement id updates s.
Proof.
  unfold updateElement, setElements. cbn. f_equal.
  rewrite <- list_fmap_compose. apply list_fmap_ext. intros n el _. cbn.
  destruct (has_id (VStr id) el) eqn:E; [|by rewrite E].
  destruct (has_id (VStr id) (spread el updates)); [|done].
  unfold spread. by rewrite (assoc_L (∪)), (idemp_L (∪)).
Qed.

(** X8.  Two updates of the same id compose into one: when the first
    carries no id field, applying it and then a second update is the
    same as applying once the second update's fields laid over the
    first's. *)
Theorem updateElement_compose (id : string) (u1 u2 : object) (s : AppState) :
  u1 !! "id" = None →
  updateElement id u2 (updateElement id u1 s) = updateElement id (spread u1 u2) s.
Proof.
  intros Hid. unfold updateElement, setElements. cbn. f_equal.
  rewrite <- list_fmap_compose. apply list_fmap_ext. intros n el _. cbn.
  destruct (has_id (VStr id) el) eqn:E; [|by rewrite E].
  rewrite has_id_spread, E by done.
  unfold spread. by rewrite (assoc_L (∪)).
Qed.

Lemma updateElement_compose_witness :
  ({["x" := VNum 5]} : object) !! "id" = None ∧
  updateElement "e1" {["y" := VNum 7]}
    (updateElement "e1" {["x" := VNum 5]} after_add) =
  updateElement "e1" (<["y" := VNum 7]> {["x" := VNum 5]}) after_add.
Proof.
  split; [reflexivity|].
  rewrite (updateElement_compose "e1" {["x" := VNum 5]} {["y" := VNum 7]} after_add)
    by reflexivity.
  vm_compute. reflexivity.
Defined.

(** X9.  deleteElement with a target removes every element that carries
    the target id and no other: afterwards no element has that id, the
    elements left are exactly those of before with another id, in their
    old order, and the new array is the snapshot under the cursor. *)
Theorem deleteElement_removes_target (id : option string) (s : AppState) :
  truthy (target_of id s) = true →
  ¬ present (target_of id s) (elements (deleteElement id s)) ∧
  (∀ el, el ∈ elements (deleteElement id s) ↔
         el ∈ elements s ∧ has_id (target_of id s) el = false) ∧
  elements (deleteElement id s) `sublist_of` elements s ∧
  in_sync (deleteElement id s).
Proof.
  intros Ht.
  destruct (deleteElement_cases id s) as [[Hn _]|[_ (Hels & _ & Hs)]];
    [cbn [commits] in Hn; congruence|].
  cbn zeta in Hels, Hs. split_and!.
  - rewrite Hels. intros (el & [Hf _]%list_elem_of_filter & Hid). congruence.
  - intros el. rewrite Hels. rewrite list_elem_of_filter. tauto.
  - rewrite Hels. apply sublist_filter.
  - rewrite Hs. destruct (strict_eq _ _); by apply addToHistory_in_sync.
Qed.

Lemma deleteElement_removes_target_witness :
  truthy (target_of (Some "e1") after_add) = true ∧
  elements (deleteElement (Some "e1") after_add) `sublist_of` [shape_e1].
Proof.
  split; [reflexivity|].
  exact (proj1 (proj2 (proj2
    (deleteElement_removes_target (Some "e1") after_add eq_refl)))).
Defined.

(** X10.  The element addElement creates has width 300 and height 100
    when it is a text and 200 by 200 otherwise, rotation 0, opacity 1,
    zIndex one more than the number of elements, its type and the
    generated id, each unless the payload gives the field; and
    addElement selects the id the element ends up with. *)
Theorem addElement_default_fields
    (gid : string) (type : ElementType) (payload : object) (s : AppState) :
  let el := new_element gid type payload s in
  let or_default k d := Some (match payload !! k with Some v => v | None => d end) in
  el !! "width" = or_default "width" (VNum (if decide (type = TEXT) then 300 else 200)) ∧
  el !! "height" = or_default "height" (VNum (if decide (type = TEXT) then 100 else 200)) ∧
  el !! "rotation" = or_default "rotation" (VNum 0) ∧
  el !! "opacity" = or_default "opacity" (VNum 1) ∧
  el !! "zIndex" = or_default "zIndex" (VNum (Z.of_nat (length (elements s)) + 1)) ∧
  el !! "type" = or_default "type" (ElementType_value type) ∧
  el !! "id" = or_default "id" (VStr gid) ∧
  selectedId (addElement gid type payload s) = get el "id".
Proof.
  cbn zeta. rewrite !new_element_other by done. unfold base_element.
  rewrite !spread_lookup. split_and!; try reflexivity.
  - by destruct (payload !! "width").
  - by destruct (payload !! "height").
  - by destruct (payload !! "rotation").
  - by destruct (payload !! "opacity").
  - by destruct (payload !! "zIndex").
  - by destruct (payload !! "type").
  - by destruct (payload !! "id").
Qed.

Lemma find_fmap_has_id v (f : object → object) (els : list object) :
  (∀ el, has_id v (f el) = has_id v el) →
  List.find (has_id v) (f <$> els) = f <$> List.find (has_id v) els.
Proof.
  intros Hf. induction els as [|el els IH]; [done|].
  cbn. rewrite Hf. destruct (has_id v el); [done|apply IH].
Qed.

(** X11.  The selected element follows an update: after updateElement
    with fields that hold no id, the element resolved from the
    selection is the one resolved before, merged with the fields when it
    carries the updated id and untouched otherwise (null stays null). *)
Theorem selectedElement_after_update (id : string) (updates : object) (s : AppState) :
  updates !! "id" = None →
  selectedElement (updateElement id updates s) =
  (λ el, if has_id (VStr id) el then spread el updates else el) <$> selectedElement s.
Proof.
  intros Hid. unfold selectedElement, updateElement.
  cbn [elements selectedId setElements].
  apply find_fmap_has_id. intros el.
  destruct (has_id (VStr id) el); [by apply has_id_spread|done].
Qed.

Lemma selectedElement_after_update_witness :
  ({["x" := VNum 5]} : object) !! "id" = None ∧
  selectedElement (updateElement "e1" {["x" := VNum 5]} after_add) =
  Some shape_e1_moved.
Proof.
  split; [reflexivity|].
  rewrite (selectedElement_after_update "e1" {["x" := VNum 5]} after_add)
    by reflexivity.
  vm_compute. reflexivity.
Defined.

(** ** Paint order *)

Lemma zIndex_positional_snoc (els : list object) (el : object) :
  zIndex_positional els →
  el !! "zIndex" = Some (VNum (Z.of_nat (length els) + 1)) →
  zIndex_positional (els ++ [el]).
Proof.
  intros Hp Hel n x Hx. apply lookup_app_Some in Hx as [Hx|[Hn Hx]].
  - by apply Hp.
  - apply list_lookup_singleton_Some in Hx as [Hz <-].
    replace n with (length els) by lia. done.
Qed.

Lemma zIndex_positional_prefix (els : list object) (el : object) :
  zIndex_positional (els ++ [el]) →
  zIndex_positional els ∧ el !! "zIndex" = Some (VNum (Z.of_nat (length els) + 1)).
Proof.
  intros Hp. split.
  - intros n x Hx. apply Hp. by apply lookup_app_l_Some.
  - apply Hp. by rewrite list_lookup_middle.
Qed.

Lemma max_zIndex_nonneg els : (0 ≤ max_zIndex els)%Z.
Proof.
  induction els as [|el els IH]; [done|].
  change (max_zIndex (el :: els)) with (Z.max (zIndex_of el) (max_zIndex els)).
  lia.
Qed.

Lemma max_zIndex_snoc els el :
  max_zIndex (els ++ [el]) = Z.max (max_zIndex els) (zIndex_of el).
Proof.
  induction els as [|x els IH].
  - change (Z.max (zIndex_of el) 0 = Z.max 0 (zIndex_of el)). lia.
  - change (Z.max (zIndex_of x) (max_zIndex (els ++ [el])) =
            Z.max (Z.max (zIndex_of x) (max_zIndex els)) (zIndex_of el)).
    rewrite IH. lia.
Qed.

Lemma zIndex_positional_max els :
  zIndex_positional els → max_zIndex els = Z.of_nat (length els).
Proof.
  induction els as [|el els IH] using rev_ind; [done|].
  intros [Hp Hel]%zIndex_positional_prefix.
  rewrite max_zIndex_snoc, IH, length_app by done.
  unfold zIndex_of, get. rewrite Hel. cbn. lia.
Qed.

Lemma Forall_history_commit (P : list object → Prop) s newElements st :
  Forall P (history s) → P newElements →
  Forall P (history (addToHistory s newElements st)).
Proof.
  intros Hh Hn. rewrite addToHistory_history. apply Forall_app. split.
  - unfold slice0. by apply Forall_take.
  - by apply Forall_singleton.
Qed.

Lemma step_zIndex_positional c s s' :
  keeps_zIndex c = true → step c s = Some s' →
  zIndex_positional (elements s) → Forall zIndex_positional (history s) →
  zIndex_positional (elements s') ∧ Forall zIndex_positional (history s').
Proof.
  intros Hk Hstep He Hh.
  destruct c as [gid ty p|id u|id|gid id|b|b|id];
    cbn [step keeps_zIndex] in Hstep, Hk; try done.
  - injection Hstep as <-. apply bool_decide_eq_true in Hk.
    assert (zIndex_positional (elements s ++ [new_element gid ty p s])) as Hnew.
    { apply zIndex_positional_snoc; [done|].
      rewrite new_element_other by done. unfold base_element.
      rewrite spread_lookup, Hk. rewrite !lookup_insert_ne by done.
      by rewrite lookup_insert_eq. }
    split; [exact Hnew|]. unfold addElement.
    by apply Forall_history_commit.
  - injection Hstep as <-. apply bool_decide_eq_true in Hk.
    split; [|exact Hh]. intros n el' Hel'.
    pose proof (updateElement_fields id u s "zIndex" Hk) as F.
    destruct (Forall2_lookup_r _ _ _ _ _ F Hel') as (el & Hel & ->).
    by apply He.
  - injection Hstep as <-.
    destruct (duplicateElement_cases gid id s) as [[_ ->]|[_ (src & _ & ->)]];
      [done|].
    assert (zIndex_positional
      (elements s ++ [copy_element gid (length (elements s)) src])) as Hnew.
    { apply zIndex_positional_snoc; [done|].
      unfold copy_element. by rewrite lookup_insert_eq. }
    split; [exact Hnew|]. by apply Forall_history_commit.
  - apply handleUndo_cases in Hstep as [[_ ->]|[_ (snapshot & Hi & ->)]]; [done|].
    split; [|exact Hh]. cbn. unfold index in Hi.
    destruct (_ <? _)%Z; [done|]. by eapply Forall_lookup_1 in Hh.
  - apply handleRedo_cases in Hstep as [[_ ->]|[_ (snapshot & Hi & ->)]]; [done|].
    split; [|exact Hh]. cbn. unfold index in Hi.
    destruct (_ <? _)%Z; [done|]. by eapply Forall_lookup_1 in Hh.
  - by injection Hstep as <-.
Qed.

Lemma run_zIndex_positional cs s s' :
  forallb keeps_zIndex cs = true → run cs s = Some s' →
  zIndex_positional (elements s) → Forall zIndex_positional (history s) →
  zIndex_positional (elements s') ∧ Forall zIndex_positional (history s').
Proof.
  revert s. induction cs as [|c cs IH]; intros s Hk; cbn [run].
  - by intros [= <-].
  - cbn [forallb] in Hk. apply andb_true_iff in Hk as [Hc Hcs].
    destruct (step c s) as [s1|] eqn:Hstep; cbn; [|done].
    intros Hrun He Hh.
    destruct (step_zIndex_positional _ _ _ Hc Hstep He Hh) as [He1 Hh1].
    by apply (IH s1).
Qed.

(** X12.  As long as nothing is deleted and no payload or update writes
    a zIndex, paint order is insertion order: after every such run from
    startup the element at position n of the store has zIndex n + 1, so
    the zIndex values are distinct, the largest is the number of
    elements, and the copy duplicateElement appends gets the largest
    zIndex of the new store. *)
Theorem zIndex_follows_position (cs : list command) (s : AppState) :
  forallb keeps_zIndex cs = true → run cs startup = Some s →
  zIndex_positional (elements s) ∧
  max_zIndex (elements s) = Z.of_nat (length (elements s)) ∧
  ∀ gid id, present (VStr id) (elements s) →
    ∃ dup, elements (duplicateElement gid id s) = elements s ++ [dup] ∧
      get dup "zIndex" = VNum (max_zIndex (elements (duplicateElement gid id s))).
Proof.
  intros Hk Hrun.
  destruct (run_zIndex_positional cs startup s Hk Hrun) as [He Hh].
  { intros n el Hn. by rewrite startup_state in Hn. }
  { rewrite startup_state. cbn. repeat constructor. intros n el Hn. done. }
  split; [done|]. split; [by apply zIndex_positional_max|].
  intros gid id (el & Hel & Hid).
  destruct (duplicateElement_cases gid id s) as [[Hn _]|[_ (src & _ & ->)]].
  { cbn [commits] in Hn. apply bool_decide_eq_false in Hn.
    destruct Hn. by eapply find_some_has. }
  eexists. split; [reflexivity|]. unfold_setters.
  assert (copy_element gid (length (elements s)) src !! "zIndex" =
          Some (VNum (Z.of_nat (length (elements s)) + 1))) as Hz
    by (unfold copy_element; by rewrite lookup_insert_eq).
  rewrite (zIndex_positional_max (elements s ++ _))
    by (by apply zIndex_positional_snoc).
  rewrite (get_lookup _ _ _ Hz), length_app. cbn. f_equal. lia.
Qed.

Lemma zIndex_follows_position_witness :
  forallb keeps_zIndex [CAdd "e1" SHAPE ∅] = true ∧
  run [CAdd "e1" SHAPE ∅] startup = Some after_add ∧
  max_zIndex (elements after_add) = 1%Z.
Proof.
  split; [reflexivity|]. split; [exact run_add|].
  exact (proj1 (proj2
    (zIndex_follows_position [CAdd "e1" SHAPE ∅] after_add eq_refl run_add))).
Defined.

(** ** Keyboard shortcuts *)

Lemma deleteElement_on_self id s : deleteElement_on s id s = deleteElement id s.
Proof. reflexivity. Qed.

Lemma handleUndo_on_deps cl confirm st :
  history cl = history st → historyIndex cl = historyIndex st →
  handleUndo_on cl confirm st = handleUndo confirm st.
Proof. intros Hh Hi. unfold handleUndo_on, handleUndo. by rewrite Hh, Hi. Qed.

Lemma handleRedo_on_deps cl confirm st :
  history cl = history st → historyIndex cl = historyIndex st →
  handleRedo_on cl confirm st = handleRedo confirm st.
Proof. intros Hh Hi. unfold handleRedo_on, handleRedo. by rewrite Hh, Hi. Qed.

Lemma is_delete_key_no_shortcut e k :
  is_delete_key e = true → k = "z" ∨ k = "y" → is_shortcut e k = false.
Proof.
  unfold is_delete_key, is_shortcut.
  intros [H%String.eqb_eq|H%String.eqb_eq]%orb_true_iff [-> | ->];
    rewrite H; apply andb_false_r.
Qed.

(** X13.  The Delete or Backspace key, with a selection and outside a
    text field, makes the whole next state from the state the listener
    captured: the result is what deleteElement() gives on the captured
    state, whatever the current state is.  The listener is renewed only
    when selectedId, history or historyIndex change, so every
    updateElement made since then is undone by the key press. *)
Theorem keyboard_delete_uses_captured_state
    (cl st : AppState) (e : KeyboardEvent) (activeTag : option string)
    (confirm : bool) :
  is_delete_key e = true → truthy (selectedId cl) = true →
  outside_text_field activeTag = true →
  handleKeyDown cl e activeTag confirm st = Some (deleteElement None cl, false).
Proof.
  intros Hk Hsel Htag. unfold handleKeyDown.
  rewrite Hk, Hsel, Htag, !is_delete_key_no_shortcut by auto. cbn.
  do 2 f_equal. unfold deleteElement_on, deleteElement.
  rewrite Hsel, strict_eq_refl_truthy by done. reflexivity.
Qed.

Lemma keyboard_delete_uses_captured_state_witness :
  is_delete_key (mkKey "Delete" false false) = true ∧
  truthy (selectedId after_add) = true ∧
  outside_text_field (Some "BODY") = true ∧
  elements after_add_update = [shape_e1_moved] ∧
  handleKeyDown after_add (mkKey "Delete" false false) (Some "BODY") true
    after_add_update = Some (deleteElement None after_add, false).
Proof.
  repeat (split; [reflexivity|]).
  exact (keyboard_delete_uses_captured_state after_add after_add_update
           (mkKey "Delete" false false) (Some "BODY") true
           eq_refl eq_refl eq_refl).
Defined.

(** X14.  Ctrl or Meta with z is undo and with y is redo, wherever the
    focus is (a text field does not suppress them), and the default
    action is prevented.  Undo and redo read only history and
    historyIndex, which renew the listener when they change: with these
    two as in the current state the key does exactly what the toolbar's
    handleUndo or handleRedo does. *)
Theorem keyboard_undo_redo
    (cl st : AppState) (e : KeyboardEvent) (activeTag : option string)
    (confirm : bool) :
  history cl = history st → historyIndex cl = historyIndex st →
  (is_shortcut e "z" = true →
   handleKeyDown cl e activeTag confirm st =
     (λ s', (s', true)) <$> handleUndo confirm st) ∧
  (is_shortcut e "y" = true →
   handleKeyDown cl e activeTag confirm st =
     (λ s', (s', true)) <$> handleRedo confirm st).
Proof.
  intros Hh Hi. unfold handleKeyDown.
  assert (∀ k, k = "z" ∨ k = "y" → is_shortcut e k = true →
               is_delete_key e = false) as Hx.
  { intros k Hk Hs. destruct (is_delete_key e) eqn:Hd; [|done].
    by rewrite is_delete_key_no_shortcut in Hs. }
  assert (∀ k k', k ≠ k' → is_shortcut e k = true → is_shortcut e k' = false)
    as Hne.
  { intros k k' Hkk [_ Hk%String.eqb_eq]%andb_true_iff. unfold is_shortcut.
    rewrite Hk. rewrite (proj2 (String.eqb_neq k k')) by done.
    apply andb_false_r. }
  split; intros Hs.
  - rewrite (Hx "z"), Hs, (Hne "z" "y") by auto. cbn.
    rewrite handleUndo_on_deps by done. by destruct (handleUndo confirm st).
  - rewrite (Hx "y"), Hs, (Hne "y" "z") by auto. cbn.
    rewrite handleRedo_on_deps by done. by destruct (handleRedo confirm st).
Qed.

Lemma keyboard_undo_redo_witness :
  handleKeyDown after_add (mkKey "z" true false) (Some "INPUT") true after_add =
  Some (mkState [] (VStr "e1") [[]; [shape_e1]] 0, true).
Proof.
  rewrite (proj1 (keyboard_undo_redo after_add after_add (mkKey "z" true false)
                    (Some "INPUT") true eq_refl eq_refl) eq_refl).
  reflexivity.
Defined.

(** X15.  A key press that is neither Delete or Backspace with a
    selection outside a text field, nor Ctrl or Meta with a lower-case z
    or y, changes nothing and does not prevent the default: so Delete
    while typing in an INPUT or TEXTAREA, Delete without a selection,
    and Ctrl with an upper-case Z (shift held) or Y are left alone. *)
Theorem keyboard_other_keys_change_nothing
    (cl st : AppState) (e : KeyboardEvent) (activeTag : option string)
    (confirm : bool) :
  is_delete_key e && truthy (selectedId cl) && outside_text_field activeTag = false →
  is_shortcut e "z" = false → is_shortcut e "y" = false →
  handleKeyDown cl e activeTag confirm st = Some (st, false).
Proof.
  intros Hd Hz Hy. unfold handleKeyDown. rewrite Hz, Hy. cbn.
  destruct (is_delete_key e && truthy (selectedId cl)); [|done].
  cbn in Hd. by rewrite Hd.
Qed.

Lemma keyboard_other_keys_change_nothing_witness :
  handleKeyDown after_add (mkKey "Delete" false false) (Some "TEXTAREA") true
    after_add = Some (after_add, false) ∧
  handleKeyDown after_add (mkKey "Z" true false) None true after_add =
    Some (after_add, false).
Proof.
  split.
  - exact (keyboard_other_keys_change_nothing after_add after_add
             (mkKey "Delete" false false) (Some "TEXTAREA") true
             eq_refl eq_refl eq_refl).
  - exact (keyboard_other_keys_change_nothing after_add after_add
             (mkKey "Z" true false) None true eq_refl eq_refl eq_refl).
Defined.

(** ** Unique ids *)

Lemma ids_from_mono used used' els :
  (∀ i, i ∈ used → i ∈ used') → ids_from used els → ids_from used' els.
Proof.
  intros Hsub [Hnd Hf]. split; [done|].
  eapply Forall_impl; [exact Hf|]. intros el (i & Hi & Hu). exists i. auto.
Qed.

Lemma ids_from_snoc used els (el : object) gid :
  ids_from used els → gid ∉ used → el !! "id" = Some (VStr gid) →
  ids_from (gid :: used) (els ++ [el]).
Proof.
  intros [Hnd Hf] Hfresh Hid. split.
  - rewrite fmap_app. apply NoDup_app. split; [done|]. split.
    + intros x (y & -> & Hy)%list_elem_of_fmap. cbn. rewrite Hid.
      intros Heq%list_elem_of_singleton.
      eapply Forall_forall in Hf as (i & Hi & Hu); [|exact Hy].
      congruence.
    + cbn. apply NoDup_singleton.
  - apply Forall_app. split.
    + eapply Forall_impl; [exact Hf|]. intros x (i & Hi & Hu).
      exists i. split; [done|by right].
    + apply Forall_singleton. exists gid. split; [done|left].
Qed.

Lemma ids_from_filter used (P : object → Prop) `{∀ el, Decision (P el)} els :
  ids_from used els → ids_from used (filter P els).
Proof.
  intros [Hnd Hf]. split.
  - clear Hf. induction els as [|el els IH]; [done|].
    cbn in Hnd. apply NoDup_cons in Hnd as [Hel Hnd].
    rewrite filter_cons. destruct (decide (P el)); [|by apply IH].
    cbn. apply NoDup_cons. split; [|by apply IH].
    intros (y & Hy & [_ Hin]%list_elem_of_filter)%list_elem_of_fmap.
    apply Hel. apply list_elem_of_fmap. by exists y.
  - apply Forall_forall. intros el [_ Hel]%list_elem_of_filter.
    by eapply Forall_forall in Hf.
Qed.

Lemma ids_from_fmap used (f : object → object) els :
  (∀ el, f el !! "id" = el !! "id") → ids_from used els → ids_from used (f <$> els).
Proof.
  intros Hf [Hnd Hall]. split.
  - rewrite <- list_fmap_compose.
    erewrite list_fmap_ext; [exact Hnd|]. intros n el _. apply Hf.
  - apply Forall_fmap. eapply Forall_impl; [exact Hall|].
    intros el (i & Hi & Hu). exists i. cbn. by rewrite Hf.
Qed.

Lemma step_ids_from c s s' used :
  keeps_ids c = true → (∀ g, g ∈ gids [c] → g ∉ used) →
  step c s = Some s' →
  ids_from used (elements s) → Forall (ids_from used) (history s) →
  ids_from (gids [c] ++ used) (elements s') ∧
  Forall (ids_from (gids [c] ++ used)) (history s').
Proof.
  intros Hk Hfresh Hstep He Hh.
  assert (∀ used', (∀ i, i ∈ used → i ∈ used') →
            Forall (ids_from used') (history s)) as Hh'.
  { intros used' Hsub. eapply Forall_impl; [exact Hh|].
    intros snap. by apply ids_from_mono. }
  destruct c as [gid ty p|id u|id|gid id|b|b|id];
    cbn [step keeps_ids] in Hstep, Hk; cbn [gids mbind list_bind app] in *.
  - injection Hstep as <-. apply bool_decide_eq_true in Hk.
    assert (ids_from (gid :: used) (elements s ++ [new_element gid ty p s]))
      as Hnew.
    { apply ids_from_snoc; [done|apply Hfresh; left|by apply new_element_id]. }
    split; [exact Hnew|]. unfold addElement.
    apply Forall_history_commit; [|done]. apply Hh'. intros i. by right.
  - injection Hstep as <-. apply bool_decide_eq_true in Hk.
    split; [|exact Hh]. unfold updateElement. cbn [elements setElements].
    apply ids_from_fmap; [|done]. intros el.
    destruct (has_id (VStr id) el); [|done]. by rewrite spread_lookup, Hk.
  - injection Hstep as <-.
    destruct (deleteElement_cases id s) as [[_ ->]|[_ (_ & _ & ->)]]; [done|].
    set (newElements := filter _ _).
    assert (ids_from used newElements) as Hnew by by apply ids_from_filter.
    destruct (strict_eq _ _); (split; [exact Hnew|]);
      by apply Forall_history_commit.
  - injection Hstep as <-.
    destruct (duplicateElement_cases gid id s) as [[_ ->]|[_ (src & _ & ->)]].
    { split; [eapply ids_from_mono; [|exact He]|apply Hh']; intros i; by right. }
    assert (ids_from (gid :: used)
      (elements s ++ [copy_element gid (length (elements s)) src])) as Hnew.
    { apply ids_from_snoc; [done|apply Hfresh; left|].
      unfold copy_element. rewrite !lookup_insert_ne by done.
      by rewrite lookup_insert_eq. }
    split; [exact Hnew|].
    apply Forall_history_commit; [|done]. apply Hh'. intros i. by right.
  - apply handleUndo_cases in Hstep as [[_ ->]|[_ (snapshot & Hi & ->)]]; [done|].
    split; [|exact Hh]. cbn. unfold index in Hi.
    destruct (_ <? _)%Z; [done|]. by eapply Forall_lookup_1 in Hh.
  - apply handleRedo_cases in Hstep as [[_ ->]|[_ (snapshot & Hi & ->)]]; [done|].
    split; [|exact Hh]. cbn. unfold index in Hi.
    destruct (_ <? _)%Z; [done|]. by eapply Forall_lookup_1 in Hh.
  - by injection Hstep as <-.
Qed.

Lemma run_ids_from cs s s' used :
  forallb keeps_ids cs = true → NoDup (gids cs) →
  (∀ g, g ∈ gids cs → g ∉ used) →
  run cs s = Some s' →
  ids_from used (elements s) → Forall (ids_from used) (history s) →
  ∃ used', (∀ i, i ∈ used' → i ∈ used ∨ i ∈ gids cs) ∧
    ids_from used' (elements s') ∧ Forall (ids_from used') (history s').
Proof.
  revert s used. induction cs as [|c cs IH]; intros s used Hk Hnd Hfresh; cbn [run].
  - intros [= <-] He Hh. exists used. split; [by left|done].
  - cbn [forallb] in Hk. apply andb_true_iff in Hk as [Hc Hcs].
    rewrite gids_cons in Hnd, Hfresh.
    apply NoDup_app in Hnd as (Hnd1 & Hdisj & Hnd2).
    destruct (step c s) as [s1|] eqn:Hstep; cbn -[gids]; [|done].
    intros Hrun He Hh.
    destruct (step_ids_from c s s1 used Hc) as [He1 Hh1]; [|done|done|done|].
    { intros g Hg. apply Hfresh, elem_of_app. by left. }
    destruct (IH s1 (gids [c] ++ used) Hcs Hnd2) as (used' & Hsub & He' & Hh');
      [|done|done|done|].
    { intros g Hg [Hin|Hin]%elem_of_app.
      - by apply (Hdisj g).
      - apply (Hfresh g); [|done]. apply elem_of_app. by right. }
    exists used'. split; [|done]. intros i Hi. rewrite gids_cons.
    destruct (Hsub i Hi) as [[H1|H1]%elem_of_app|H1]; [|by left|];
      right; apply elem_of_app; auto.
Qed.

(** X21.  Ids are unique as long as generateId() never repeats and no
    payload or update writes an id: after every such run from startup
    each element of the store carries one of the generated ids, a
    string, and no two positions of the store carry the same id. *)
Theorem ids_are_unique (cs : list command) (s : AppState) :
  fresh_ids cs = true → run cs startup = Some s →
  NoDup ((λ el : object, el !! "id") <$> elements s) ∧
  (∀ el : object, el ∈ elements s →
     ∃ i, el !! "id" = Some (VStr i) ∧ i ∈ gids cs) ∧
  (∀ n m (el1 el2 : object),
     elements s !! n = Some el1 → elements s !! m = Some el2 →
     el1 !! "id" = el2 !! "id" → n = m).
Proof.
  intros [Hk Hnd%bool_decide_eq_true]%andb_true_iff Hrun.
  destruct (run_ids_from cs startup s [] Hk Hnd) as (used & Hsub & [Hn Hf] & _);
    [by intros g _ ?%elem_of_nil|done| | |].
  { rewrite startup_state. split; constructor. }
  { rewrite startup_state. repeat constructor. }
  split; [done|]. split.
  - intros el Hel. eapply Forall_forall in Hf as (i & Hi & Hu); [|exact Hel].
    exists i. split; [done|]. by destruct (Hsub i Hu) as [?%elem_of_nil|].
  - intros n m el1 el2 H1 H2 Heq.
    eapply (NoDup_lookup _ n m (el1 !! "id") Hn);
      rewrite list_lookup_fmap; [by rewrite H1|by rewrite H2, Heq].
Qed.

Lemma ids_are_unique_witness :
  fresh_ids [CAdd "e1" SHAPE ∅; CDuplicate "e2" "e1"] = true ∧
  ∃ s, run [CAdd "e1" SHAPE ∅; CDuplicate "e2" "e1"] startup = Some s ∧
    NoDup ((λ el : object, el !! "id") <$> elements s).
Proof.
  split; [vm_compute; reflexivity|].
  destruct (run [CAdd "e1" SHAPE ∅; CDuplicate "e2" "e1"] startup) as [s|] eqn:E;
    [|vm_compute in E; discriminate E].
  exists s. split; [reflexivity|].
  refine (proj1 (ids_are_unique [CAdd "e1" SHAPE ∅; CDuplicate "e2" "e1"] s _ E)).
  vm_compute. reflexivity.
Defined.

(** * Properties of the generative service *)

Lemma getClient_cached API_KEY client :
  getClient API_KEY (Some client) = (Some client, Some client).
Proof. reflexivity. Qed.

Lemma getClient_returns_cache API_KEY aiClient client :
  (getClient API_KEY aiClient).1 = Some client →
  (getClient API_KEY aiClient).2 = Some client.
Proof.
  unfold getClient. destruct aiClient as [c|]; [done|].
  destruct API_KEY as [k|]; [|done]. by destruct (String.eqb k "").
Qed.

Lemma getClient_calls_cached keys client j r :
  getClient_calls keys (Some client) !! j = Some r → r = Some client.
Proof.
  revert j. induction keys as [|k keys IH]; intros [|j]; cbn; try done.
  - by intros [= <-].
  - apply IH.
Qed.

(** X16.  The client is created at most once: in any sequence of
    getClient() calls, once a call has returned a client every later
    call returns that same client, whatever API_KEY is by then. *)
Theorem getClient_creates_once
    (keys : list (option string)) (aiClient : option GoogleGenAI)
    (i j : nat) (client : GoogleGenAI) (r : option GoogleGenAI) :
  i ≤ j →
  getClient_calls keys aiClient !! i = Some (Some client) →
  getClient_calls keys aiClient !! j = Some r →
  r = Some client.
Proof.
  revert aiClient i j. induction keys as [|k keys IH]; intros aiClient i j Hij;
    [done|].
  cbn [getClient_calls].
  destruct (getClient k aiClient) as [c a'] eqn:E.
  destruct i as [|i], j as [|j]; cbn; try lia.
  - by intros [= ->] [= <-].
  - intros [= ->]. pose proof (getClient_returns_cache k aiClient client) as Hc.
    rewrite E in Hc. cbn in Hc. rewrite Hc by done.
    apply getClient_calls_cached.
  - apply IH. lia.
Qed.

Lemma getClient_creates_once_witness :
  2 ≤ 4 ∧
  getClient_calls [None; Some ""; Some "k1"; None; Some "k2"] None !! 2 =
    Some (Some (mkClient "k1")) ∧
  ∀ r, getClient_calls [None; Some ""; Some "k1"; None; Some "k2"] None !! 4 =
         Some r → r = Some (mkClient "k1").
Proof.
  split; [lia|]. split; [reflexivity|]. intros r.
  apply (getClient_creates_once
           [None; Some ""; Some "k1"; None; Some "k2"] None 2 4 (mkClient "k1") r);
    [lia|reflexivity].
Defined.

(** X17.  Without an API key (absent or empty) and without a client made
    earlier, no function contacts the model and no client is created:
    generateMagicText resolves with the text "API Key missing", while
    generateMagicImage, removeTextFromImage and extractTextFromImage
    reject with an Error of that message. *)
Theorem missing_api_key
    (rt : Runtime) (API_KEY : option string) (prompt base64Image : string)
    (currentText : option string) :
  nonempty API_KEY = None →
  generateMagicText rt API_KEY None prompt currentText =
    (Resolved "API Key missing", None) ∧
  generateMagicImage rt API_KEY None prompt = (Rejected "API Key missing", None) ∧
  removeTextFromImage rt API_KEY None base64Image =
    (Rejected "API Key missing", None) ∧
  extractTextFromImage rt API_KEY None base64Image =
    (Rejected "API Key missing", None).
Proof.
  intros Hk.
  assert (getClient API_KEY None = (None, None)) as Hc.
  { unfold getClient. destruct API_KEY as [k|]; [|done].
    cbn in Hk. by destruct (String.eqb k ""). }
  unfold generateMagicText, generateMagicImage, removeTextFromImage,
    extractTextFromImage. by rewrite Hc.
Qed.

Lemma missing_api_key_witness :
  nonempty (Some "") = None ∧
  ∀ rt, generateMagicText rt (Some "") None "logo" None =
          (Resolved "API Key missing", None).
Proof.
  split; [reflexivity|]. intros rt.
  exact (proj1 (missing_api_key rt (Some "") "logo" "" None eq_refl)).
Defined.

Lemma first_inline_Some parts url :
  first_inline parts = Some url ↔
  ∃ before d after,
    parts = before ++ mkPart (Some d) :: after ∧
    Forall (λ part, inlineData part = None) before ∧
    url = data_url d.
Proof.
  split.
  - induction parts as [|[[d|]] parts IH]; cbn; [done| |].
    + intros [= <-]. by exists [], d, parts.
    + intros (before & d & after & -> & Hb & ->)%IH.
      exists (mkPart None :: before), d, after. repeat split.
      by constructor.
  - intros (before & d & after & -> & Hb & ->).
    induction Hb as [|[o] before Ho _ IH]; cbn; [done|].
    cbn in Ho. by rewrite Ho.
Qed.

(** X18.  Whenever generateMagicImage or removeTextFromImage resolves,
    a client exists, the model answered, and the result is the data URL
    data:<mimeType>;base64,<data> of the first part of the answer that
    has inlineData; parts before it have none. *)
Theorem image_result_is_first_inline_part
    (rt : Runtime) (API_KEY : option string) (aiClient : option GoogleGenAI)
    (arg url : string) (cache : option GoogleGenAI) :
  generateMagicImage rt API_KEY aiClient arg = (Resolved url, cache) ∨
  removeTextFromImage rt API_KEY aiClient arg = (Resolved url, cache) →
  ∃ client request response before d after,
    cache = Some client ∧
    generateContent rt client request = Resolved response ∧
    response_parts response = Some (before ++ mkPart (Some d) :: after) ∧
    Forall (λ part, inlineData part = None) before ∧
    url = "data:" +:+ inline_mimeType d +:+ ";base64," +:+ inline_data d.
Proof.
  unfold generateMagicImage, removeTextFromImage.
  destruct (getClient API_KEY aiClient) as [[client|] a'] eqn:Hc;
    [|by intros [|]].
  pose proof (getClient_returns_cache API_KEY aiClient client) as Ha.
  rewrite Hc in Ha. cbn in Ha. rewrite Ha by done.
  intros [H|H].
  - destruct (generateContent rt client _) as [response|] eqn:Hg; [|done].
    destruct (image_of response) as [u|] eqn:Hi;
      [|by destruct (nonempty (response_text response))].
    injection H as <- <-. unfold image_of in Hi.
    destruct (response_parts response) as [parts|] eqn:Hp; [|done].
    apply first_inline_Some in Hi as (before & d & after & -> & Hb & ->).
    by eexists client, _, response, before, d, after.
  - destruct (generateContent rt client _) as [response|] eqn:Hg; [|done].
    destruct (image_of response) as [u|] eqn:Hi; [|done].
    injection H as <- <-. unfold image_of in Hi.
    destruct (response_parts response) as [parts|] eqn:Hp; [|done].
    apply first_inline_Some in Hi as (before & d & after & -> & Hb & ->).
    by eexists client, _, response, before, d, after.
Qed.

Lemma image_result_is_first_inline_part_witness :
  generateMagicImage sample_runtime (Some "k") None "a cat" =
    (Resolved "data:image/png;base64,QUJD", Some (mkClient "k")) ∧
  ∃ d, "data:image/png;base64,QUJD" =
       "data:" +:+ inline_mimeType d +:+ ";base64," +:+ inline_data d.
Proof.
  assert (generateMagicImage sample_runtime (Some "k") None "a cat" =
    (Resolved "data:image/png;base64,QUJD", Some (mkClient "k"))) as H
    by reflexivity.
  split; [exact H|].
  destruct (image_result_is_first_inline_part _ _ _ _ _ _ (or_introl H))
    as (_ & _ & _ & _ & d & _ & _ & _ & _ & _ & Hu).
  by exists d.
Defined.

Lemma strip_prefix_contains c p s r :
  strip_prefix p s = Some r → contains_char c p = true → contains_char c s = true.
Proof.
  revert s. induction p as [|a p IH]; intros [|b s]; cbn; try done.
  destruct (Ascii.eqb_spec a b) as [->|]; [|done].
  intros Hr. destruct (Ascii.eqb b c); [done|]. cbn. by apply IH.
Qed.

Lemma match_mime_no_colon s : contains_char colon s = false → match_mime s = None.
Proof.
  induction s as [|a s IH]; [done|]. intros Hc.
  cbn [match_mime].
  destruct (strip_prefix "data:image/" (String a s)) as [r|] eqn:E.
  { apply (strip_prefix_contains colon) in E; [congruence|reflexivity]. }
  cbn. apply IH. cbn in Hc. by apply orb_false_iff in Hc as [_ ?].
Qed.

(** X19.  What removeTextFromImage and extractTextFromImage send for an
    image.  For the data URL of a PNG, JPEG, JPG or WEBP image, as
    generateMagicImage returns it for an inline part of type image/<t>,
    the data sent is the base64 payload and the mimeType sent is the bare
    subtype <t>, without the image/ in front.  For a data URL of another
    image type (GIF) the mimeType is the subtype again but the data sent
    is the whole URL, prefix included.  For a string without a colon
    (bare base64) the data is the string itself and the mimeType is
    image/png. *)
Theorem image_data_url_parsing (d : string) :
  (∀ t, t ∈ ["png"; "jpeg"; "jpg"; "webp"] →
     strip_image_prefix (data_url (mkInline ("image/" +:+ t) d)) = d ∧
     image_mimeType (data_url (mkInline ("image/" +:+ t) d)) = t) ∧
  (strip_image_prefix ("data:image/gif;base64," +:+ d) =
     "data:image/gif;base64," +:+ d ∧
   image_mimeType ("data:image/gif;base64," +:+ d) = "gif") ∧
  (contains_char colon d = false →
     strip_image_prefix d = d ∧ image_mimeType d = "image/png").
Proof.
  split_and!.
  - intros t Ht. repeat (apply elem_of_cons in Ht as [->|Ht]; [by split|]).
    by apply elem_of_nil in Ht.
  - reflexivity.
  - reflexivity.
  - intros Hc. split.
    + unfold strip_image_prefix.
      destruct (strip_prefix "data:image/" d) as [r|] eqn:E; [|done].
      apply (strip_prefix_contains colon) in E; [congruence|reflexivity].
    + unfold image_mimeType. by rewrite match_mime_no_colon.
Qed.

(** X20.  Once a client exists extractTextFromImage never rejects.  It
    resolves with the empty array when the request fails, when the
    answer's text is missing or empty and when JSON.parse throws;
    otherwise it resolves with exactly what JSON.parse returned, which
    nothing checks to be an array.  The other three functions pass a
    failed request on: they reject with the request's error. *)
Theorem extractTextFromImage_swallows_errors
    (rt : Runtime) (API_KEY : option string) (client : GoogleGenAI)
    (base64Image prompt : string) (currentText : option string) :
  (∃ result,
     (extractTextFromImage rt API_KEY (Some client) base64Image).1 =
       Resolved result ∧
     (result ≠ JArray [] →
      ∃ request response text,
        generateContent rt client request = Resolved response ∧
        response_text response = Some text ∧ text ≠ "" ∧
        JSON_parse rt text = Resolved result)) ∧
  (∀ response text parsed,
     (∀ request, generateContent rt client request = Resolved response) →
     response_text response = Some text → text ≠ "" →
     JSON_parse rt text = Resolved parsed →
     (extractTextFromImage rt API_KEY (Some client) base64Image).1 =
       Resolved parsed) ∧
  ∀ error, (∀ request, generateContent rt client request = Rejected error) →
    (extractTextFromImage rt API_KEY (Some client) base64Image).1 =
      Resolved (JArray []) ∧
    (generateMagicText rt API_KEY (Some client) prompt currentText).1 =
      Rejected error ∧
    (generateMagicImage rt API_KEY (Some client) prompt).1 = Rejected error ∧
    (removeTextFromImage rt API_KEY (Some client) base64Image).1 = Rejected error.
Proof.
  split_and!.
  - unfold extractTextFromImage. cbn [getClient fst].
    destruct (generateContent rt client _) as [response|e] eqn:Hg;
      [|by exists (JArray [])].
    destruct (response_text response) as [text|] eqn:Ht; cbn;
      [|by exists (JArray [])].
    destruct (String.eqb_spec text "") as [->|Hne]; [by exists (JArray [])|].
    destruct (JSON_parse rt text) as [parsed|e] eqn:Hp; [|by exists (JArray [])].
    exists parsed. split; [done|]. intros _.
    by eexists _, response, text.
  - intros response text parsed Hg Ht Hne Hp.
    unfold extractTextFromImage. cbn [getClient fst].
    rewrite Hg, Ht. cbn. rewrite (proj2 (String.eqb_neq text "")) by done.
    by rewrite Hp.
  - intros error Hg.
    unfold extractTextFromImage, generateMagicText, generateMagicImage,
      removeTextFromImage. cbn [getClient fst]. by rewrite !Hg.
Qed.

Lemma extractTextFromImage_swallows_errors_witness :
  (extractTextFromImage number_runtime None (Some (mkClient "k")) "QUJD").1 =
  Resolved (JPrimitive (VNum 5)).
Proof.
  apply (proj1 (proj2 (extractTextFromImage_swallows_errors
                         number_runtime None (mkClient "k") "QUJD" "" None))
           (mkResponse None (Some "5")) "5" (JPrimitive (VNum 5)));
    [intros request; reflexivity|reflexivity|discriminate|reflexivity].
Defined.

(** The result need not be an array: when the model answers "5",
    extractTextFromImage resolves with the number 5. *)
Example extractTextFromImage_returns_a_number :
  extractTextFromImage number_runtime None (Some (mkClient "k")) "QUJD" =
  (Resolved (JPrimitive (VNum 5)), Some (mkClient "k")).
Proof. reflexivity. Qed.
